(** * vue-lit: components, lifecycle hooks and the reactive render effect

    A model of [src/index.ts]: [defineComponent], the custom-element class it
    registers (constructor, [connectedCallback], [disconnectedCallback],
    [attributeChangedCallback], [observedAttributes]) and
    [createLifecycleMethod] with its five exports.

    The library code is embedded as functions over an explicit [World]
    (the module variable [currentInstance], the element instances, the
    reactivity bookkeeping).  User code (factories, render functions and
    lifecycle callbacks) is the input of those functions; it is given as
    [script]s over the operations that user code can perform on the library:
    register a callback, read or write a key of the props object, branch on
    a key, throw.

    An instance is identified by its position in [instances].  A script runs
    on behalf of one instance and reads and writes the props of that
    instance.  The two imports of [index.ts], lit-html and @vue/reactivity,
    are not part of the sources: [render] of lit-html is an event of the
    trace, and [shallowReactive] and [effect] are modelled from the spec
    (sections 4.1 to 4.3), each such definition saying so.  The object
    behind the reactive proxy is the plain object [{}] of the constructor: a
    key that names a member of [Object.prototype] reads as that member until
    it is written, and an assignment to [__proto__] sets no key.  Reruns nest
    through writes made by the code being rerun, without bound in general, so
    every function that may rerun a computation takes the depth [fuel] it is
    allowed. *)

From stdpp Require Import base option list gmap strings.

Open Scope string_scope.
Open Scope list_scope.

(** ** Values and user code *)

(** What is written into the props object here: the [string | null] of an
    attribute notification, and [undefined]. *)
Inductive value :=
| VUndefined
| VNull
| VString (s : string).

(** JavaScript truthiness of those values. *)
Definition truthy (v : value) : bool :=
  match v with
  | VString EmptyString => false
  | VString _ => true
  | _ => false
  end.

(** The property names of [Object.prototype]. *)
Definition Object_prototype : list string :=
  ["constructor"; "hasOwnProperty"; "isPrototypeOf"; "propertyIsEnumerable";
   "toLocaleString"; "toString"; "valueOf"; "__defineGetter__";
   "__defineSetter__"; "__lookupGetter__"; "__lookupSetter__"; "__proto__"].

(** A plain object as the literal [{}] makes it: its own properties, and
    whether its prototype is still [Object.prototype].  The prototype is
    [null] otherwise: with the values above, that is the only other
    prototype the object can be given. *)
Record object := {
  own : gmap string value;
  inherits : bool;
}.

(** [{}] *)
Global Instance object_empty : Empty object := {| own := ∅; inherits := true |}.

(** What a property read evaluates to: the value of an own property, else a
    member of [Object.prototype] (a function, or the prototype itself for
    [__proto__]) when the object inherits one under that name, else
    [undefined]. *)
Inductive read :=
| Value (v : value)
| Builtin.

Definition member (key : string) (o : object) : read :=
  match own o !! key with
  | Some v => Value v
  | None =>
    if inherits o && bool_decide (key ∈ Object_prototype) then Builtin
    else Value VUndefined
  end.

Definition ToBoolean (r : read) : bool :=
  match r with
  | Value v => truthy v
  | Builtin => true
  end.

(** [o[key] = v].  An own property is updated.  Otherwise [__proto__], while
    the object inherits the accessor of that name from [Object.prototype],
    goes to the accessor's setter, which takes [null] as the new prototype
    and ignores a string or [undefined]; any other key, the names of the
    methods of [Object.prototype] included, becomes an own property. *)
Definition assign (key : string) (v : value) (o : object) : object :=
  match own o !! key with
  | Some _ => {| own := <[key := v]> (own o); inherits := inherits o |}
  | None =>
    if inherits o && bool_decide (key = "__proto__")
    then match v with
         | VNull => {| own := own o; inherits := false |}
         | _ => o
         end
    else {| own := <[key := v]> (own o); inherits := inherits o |}
  end.

(** The five exported registration functions. *)
Inductive lifecycle :=
| OnBeforeMount
| OnMounted
| OnBeforeUpdate
| OnUpdated
| OnUnmounted.

(** The body of a user function, as the sequence of library-visible actions
    it performs on the props object it closes over.  A callback handed to a
    registration function is again such a body. *)
Inductive script :=
| Return
| Throw
| Hook (m : lifecycle) (cb : script) (k : script)
| Get (key : string) (k : script)
| Put (key : string) (v : value) (k : script)
| Branch (key : string) (yes no : script).

(** [Factory]: [() => () => TemplateResult]; the body of the factory and the
    body of the render function it returns. *)
Record Factory := {
  setup : script;
  render : script;
}.

(** ** State *)

(** An element instance: [_props], the object behind the reactive proxy, and
    the optional callback arrays [_bm], [_bu], [_u], [_m], [_um], addressed
    by field name as [currentInstance[name]] does. *)
Record Instance := {
  _props : object;
  fields : gmap string (list script);
}.

(** Modelled from the spec: the Computation of sections 3 and 4.3, which
    [effect] of @vue/reactivity creates (not under src/).  It carries the
    function given to [effect]: the arrow function of the constructor, which
    closes over [template] and [isMounted]; [runs] counts its executions. *)
Record Computation := {
  template : script;
  isMounted : bool;
  runs : nat;
}.

(** Observable lifecycle activity, in order of occurrence: a callback taken
    from the list [name] of instance [i] is called; lit-html's [render] is
    called for instance [i]. *)
Inductive event :=
| Invoke (i : nat) (name : string) (cb : script)
| Rendered (i : nat).

(** The class handed to [customElements.define]. *)
Record ElementClass := {
  observedAttributes : list string;
  factory : option Factory;
}.

(** The state: the module variable [currentInstance]; the platform's
    registry; the element instances created so far; the reactivity library's
    tracker ([targetMap], from (object, key) to the dependent computations in
    registration order, an object being the props of the instance with that
    number), its computations (one per instance, created by the constructor's
    call of [effect]) and the computation now running; and the trace. *)
Record World := {
  currentInstance : option nat;
  customElements : gmap string ElementClass;
  instances : list Instance;
  targetMap : gmap (nat * string) (list nat);
  effects : gmap nat Computation;
  activeEffect : option nat;
  trace : list event;
}.

Definition boot : World :=
  {| currentInstance := None; customElements := ∅; instances := [];
     targetMap := ∅; effects := ∅; activeEffect := None; trace := [] |}.

Definition with_currentInstance (c : option nat) (w : World) : World :=
  {| currentInstance := c; customElements := customElements w;
     instances := instances w; targetMap := targetMap w;
     effects := effects w; activeEffect := activeEffect w; trace := trace w |}.

Definition with_customElements (r : gmap string ElementClass) (w : World) : World :=
  {| currentInstance := currentInstance w; customElements := r;
     instances := instances w; targetMap := targetMap w;
     effects := effects w; activeEffect := activeEffect w; trace := trace w |}.

Definition with_instances (l : list Instance) (w : World) : World :=
  {| currentInstance := currentInstance w; customElements := customElements w;
     instances := l; targetMap := targetMap w;
     effects := effects w; activeEffect := activeEffect w; trace := trace w |}.

Definition with_targetMap (t : gmap (nat * string) (list nat)) (w : World) : World :=
  {| currentInstance := currentInstance w; customElements := customElements w;
     instances := instances w; targetMap := t;
     effects := effects w; activeEffect := activeEffect w; trace := trace w |}.

Definition with_effects (m : gmap nat Computation) (w : World) : World :=
  {| currentInstance := currentInstance w; customElements := customElements w;
     instances := instances w; targetMap := targetMap w;
     effects := m; activeEffect := activeEffect w; trace := trace w |}.

Definition with_activeEffect (a : option nat) (w : World) : World :=
  {| currentInstance := currentInstance w; customElements := customElements w;
     instances := instances w; targetMap := targetMap w;
     effects := effects w; activeEffect := a; trace := trace w |}.

Definition log (ev : event) (w : World) : World :=
  {| currentInstance := currentInstance w; customElements := customElements w;
     instances := instances w; targetMap := targetMap w;
     effects := effects w; activeEffect := activeEffect w;
     trace := trace w ++ [ev] |}.

(** Readers. *)
Definition props_of (w : World) (i : nat) : object :=
  from_option _props ∅ (instances w !! i).

Definition field (w : World) (i : nat) (name : string) : option (list script) :=
  instances w !! i ≫= λ inst, fields inst !! name.

Definition registered (w : World) (i : nat) (name : string) : list script :=
  default [] (field w i name).

Definition dependents (w : World) (o : nat) (key : string) : list nat :=
  default [] (targetMap w !! (o, key)).

Definition runs_of (w : World) (e : nat) : nat :=
  from_option runs 0 (effects w !! e).

(** ** Outcomes

    Normal completion, a thrown exception, or a recursion of reruns deeper
    than the given bound; each with the world reached. *)

Inductive outcome :=
| Normal (w : World)
| Raised (w : World)
| Exhausted (w : World).

Definition bind (o : outcome) (f : World → outcome) : outcome :=
  match o with
  | Normal w => f w
  | Raised w => Raised w
  | Exhausted w => Exhausted w
  end.

Notation "o >>= f" := (bind o f) (at level 50, left associativity).

(** [l.forEach(f)]: the range is fixed when the loop starts. *)
Fixpoint forEach {A} (f : A → World → outcome) (l : list A) (w : World) : outcome :=
  match l with
  | [] => Normal w
  | x :: l' => f x w >>= forEach f l'
  end.

(** ** createLifecycleMethod and its exports *)

(** [(inst[name] || (inst[name] = [])).push(cb)] *)
Definition push (name : string) (cb : script) (inst : Instance) : Instance :=
  {| _props := _props inst;
     fields := <[name := default [] (fields inst !! name) ++ [cb]]> (fields inst) |}.

(** The function that [createLifecycleMethod(name)] returns, applied to [cb].
    The current instance, when there is one, is an instance of the world. *)
Definition createLifecycleMethod (name : string) (cb : script) (w : World) : World :=
  match currentInstance w with
  | Some i => with_instances (alter (push name cb) i (instances w)) w
  | None => w
  end.

Definition onBeforeMount := createLifecycleMethod "_bm".
Definition onMounted := createLifecycleMethod "_m".
Definition onBeforeUpdate := createLifecycleMethod "_bu".
Definition onUpdated := createLifecycleMethod "_u".
Definition onUnmounted := createLifecycleMethod "_um".

Definition export (m : lifecycle) : script → World → World :=
  match m with
  | OnBeforeMount => onBeforeMount
  | OnMounted => onMounted
  | OnBeforeUpdate => onBeforeUpdate
  | OnUpdated => onUpdated
  | OnUnmounted => onUnmounted
  end.

Definition field_name (m : lifecycle) : string :=
  match m with
  | OnBeforeMount => "_bm"
  | OnMounted => "_m"
  | OnBeforeUpdate => "_bu"
  | OnUpdated => "_u"
  | OnUnmounted => "_um"
  end.

(** ** The reactive props object *)

(** Modelled from the spec: [track] of section 4.2 (@vue/reactivity is not
    under src/).  The active computation joins the dependent set of
    (object, key) unless it is already there.  The computation's own
    dependency set is kept implicit: it is the set of pairs whose dependent
    set holds the computation. *)
Definition track (o : nat) (key : string) (w : World) : World :=
  match activeEffect w with
  | None => w
  | Some e =>
    if decide (e ∈ dependents w o key) then w
    else with_targetMap (<[(o, key) := dependents w o key ++ [e]]> (targetMap w)) w
  end.

(** Modelled from the spec: removing a computation from one dependent set;
    an entry left without dependents is dropped (section 3). *)
Definition without (e : nat) (l : list nat) : option (list nat) :=
  match filter (λ x, x ≠ e) l with
  | [] => None
  | l' => Some l'
  end.

(** Modelled from the spec: the computation leaves every dependent set
    (section 4.3, "clears its previous dependency set"). *)
Definition cleanup (e : nat) (w : World) : World :=
  with_targetMap (omap (without e) (targetMap w)) w.

(** The raw write [target[key] = v] behind the proxy. *)
Definition poke (key : string) (v : value) (inst : Instance) : Instance :=
  {| _props := assign key v (_props inst); fields := fields inst |}.

Definition store (o : nat) (key : string) (v : value) (w : World) : World :=
  with_instances (alter (poke key v) o (instances w)) w.

(** The raw read [target[key]] behind the proxy. *)
Definition peek (o : nat) (key : string) (w : World) : read :=
  member key (props_of w o).

Section Interpreter.
(** [rerun e]: run computation [e] again. *)
Variable rerun : nat → World → outcome.

(** Modelled from the spec: [trigger] of section 4.2; the dependent set is
    snapshot before it is iterated, in registration order. *)
Definition trigger (o : nat) (key : string) (w : World) : outcome :=
  forEach rerun (dependents w o key) w.

(** Modelled from the spec: a write through the Reactive Object (section
    4.1) stores the value, then triggers the dependents of the key. *)
Definition reactive_set (o : nat) (key : string) (v : value) (w : World) : outcome :=
  trigger o key (store o key v w).

(** Running user code on behalf of instance [self], whose props object
    the code closes over. *)
Fixpoint exec (self : nat) (s : script) (w : World) : outcome :=
  match s with
  | Return => Normal w
  | Throw => Raised w
  | Hook m cb k => exec self k (export m cb w)
  | Get key k => exec self k (track self key w)
  | Put key v k => reactive_set self key v w >>= exec self k
  | Branch key yes no =>
    if ToBoolean (peek self key w)
    then exec self yes (track self key w)
    else exec self no (track self key w)
  end.

(** [this[name] && this[name].forEach((cb) => cb())] *)
Definition fire (this : nat) (name : string) (w : World) : outcome :=
  match field w this name with
  | None => Normal w
  | Some cbs => forEach (λ cb w, exec this cb (log (Invoke this name cb) w)) cbs w
  end.

Definition mounted (w : World) (this : nat) : bool :=
  from_option isMounted false (effects w !! this).

Definition set_mounted (this : nat) (w : World) : World :=
  with_effects
    (alter (λ c, {| template := template c; isMounted := true; runs := runs c |})
           this (effects w)) w.

(** The arrow function that the constructor hands to [effect]. *)
Definition effect_fn (this : nat) (w : World) : outcome :=
  match effects w !! this with
  | None => Normal w
  | Some c =>
    (if negb (mounted w this) then fire this "_bu" w else Normal w) >>= λ w,
    exec this (template c) w >>= λ w,
    let w := log (Rendered this) w in
    if mounted w this then fire this "_u" w
    else Normal (set_mounted this w)
  end.
End Interpreter.

Definition count_run (e : nat) (w : World) : World :=
  with_effects
    (alter (λ c, {| template := template c; isMounted := isMounted c; runs := S (runs c) |})
           e (effects w)) w.

(** Modelled from the spec: [run] of section 4.3.  The previous dependency
    set is cleared, the computation is marked active, its function executes,
    and the computation that was active before is active again.  A thrown
    exception propagates at once.  [fuel] bounds the depth of reruns nested
    through writes made by the function itself. *)
Fixpoint run (fuel : nat) (e : nat) (w : World) : outcome :=
  match fuel with
  | 0 => Exhausted w
  | S n =>
    match effects w !! e with
    | None => Normal w
    | Some _ =>
      let prev := activeEffect w in
      effect_fn (run n) e (with_activeEffect (Some e) (count_run e (cleanup e w)))
        >>= λ w', Normal (with_activeEffect prev w')
    end
  end.

(** Modelled from the spec: [effect] creates the computation and runs it
    once, eagerly (section 4.3). *)
Definition effect (fuel : nat) (this : nat) (tmpl : script) (w : World) : outcome :=
  run fuel this
    (with_effects
       (<[this := {| template := tmpl; isMounted := false; runs := 0 |}]> (effects w)) w).

(** ** The element class *)

Definition fresh_instance : Instance := {| _props := ∅; fields := ∅ |}.

Definition constructor (fuel : nat) (cls : ElementClass) (w : World) : outcome :=
  let this := length (instances w) in
  let w := with_instances (instances w ++ [fresh_instance]) w in
  let w := with_currentInstance (Some this) w in
  match factory cls with
  | None => Raised w
  | Some f =>
    exec (run fuel) this (setup f) w >>= λ w,
    let w := with_currentInstance None w in
    fire (run fuel) this "_bm" w >>= λ w,
    effect fuel this (render f) w
  end.

Definition connectedCallback (fuel : nat) (this : nat) (w : World) : outcome :=
  fire (run fuel) this "_m" w.

Definition disconnectedCallback (fuel : nat) (this : nat) (w : World) : outcome :=
  fire (run fuel) this "_um" w.

Definition attributeChangedCallback (fuel : nat) (this : nat)
    (name : string) (oldValue newValue : value) (w : World) : outcome :=
  reactive_set (run fuel) this name newValue w.

(** ** defineComponent *)

(** The second argument: a function (the factory) or an array of names. *)
Inductive propDefsArg :=
| IsFunction (f : Factory)
| IsArray (l : list string).

(** Modelled from the spec: the platform registry of section 6, which
    rejects an identifier that is already defined. *)
Definition customElements_define (name : string) (cls : ElementClass) (w : World) : outcome :=
  match customElements w !! name with
  | Some _ => Raised w
  | None => Normal (with_customElements (<[name := cls]> (customElements w)) w)
  end.

(** The anonymous class of [defineComponent], after the two call shapes
    have been told apart. *)
Definition element_class (propDefs : propDefsArg) (factory : option Factory) : ElementClass :=
  let '(propDefs, factory) :=
    match propDefs with
    | IsFunction f => ([], Some f)
    | IsArray l => (l, factory)
    end in
  {| observedAttributes := propDefs; factory := factory |}.

Definition defineComponent (name : string) (propDefs : propDefsArg)
    (factory : option Factory) (w : World) : outcome :=
  customElements_define name (element_class propDefs factory) w.

(** ** User code that neither writes props nor throws *)

Fixpoint calm (s : script) : bool :=
  match s with
  | Return => true
  | Throw => false
  | Hook _ cb k => calm cb && calm k
  | Get _ k => calm k
  | Put _ _ _ => false
  | Branch _ yes no => calm yes && calm no
  end.

(** What such code does along the branch it takes, given the props it sees. *)
Inductive action :=
| Tracked (key : string)
| Hooked (m : lifecycle) (cb : script).

Fixpoint path (ps : object) (s : script) : list action :=
  match s with
  | Return => []
  | Throw => []
  | Hook m cb k => Hooked m cb :: path ps k
  | Get key k => Tracked key :: path ps k
  | Put key v k => path (assign key v ps) k
  | Branch key yes no =>
    Tracked key ::
      if ToBoolean (member key ps) then path ps yes else path ps no
  end.

Definition replay (self : nat) (w : World) (a : action) : World :=
  match a with
  | Tracked key => track self key w
  | Hooked m cb => export m cb w
  end.

Definition replays (self : nat) (l : list action) (w : World) : World :=
  foldl (replay self) w l.

Definition key_of (a : action) : option string :=
  match a with
  | Tracked key => Some key
  | Hooked _ _ => None
  end.

(** The keys that a script reads on the branch it takes. *)
Definition reads (ps : object) (s : script) : list string :=
  omap key_of (path ps s).

(** *** Firing a list of calm callbacks *)

Definition call_cb (i : nat) (name : string) (w : World) (cb : script) : World :=
  replays i (path (props_of w i) cb) (log (Invoke i name cb) w).

Definition fired (i : nat) (name : string) (cbs : list script) (w : World) : World :=
  foldl (call_cb i name) w cbs.

Definition all_calm (l : list script) : bool := forallb calm l.

(** ** Worlds in which all user code is calm *)

Definition calm_instance (inst : Instance) : bool :=
  forallb (λ p, all_calm p.2) (map_to_list (fields inst)).

Definition calm_world (w : World) : bool :=
  forallb calm_instance (instances w)
  && forallb (λ p, calm (template p.2)) (map_to_list (effects w)).

Definition Calm (w : World) : Prop :=
  (∀ i name, all_calm (registered w i name) = true) ∧
  (∀ e c, effects w !! e = Some c → calm (template c) = true).

(** No dependent set lists a computation twice. *)
Definition tracker_nodup (w : World) : bool :=
  forallb (λ p, bool_decide (NoDup p.2)) (map_to_list (targetMap w)).

Definition NoDups (w : World) : Prop := ∀ o key, NoDup (dependents w o key).

(** ** One run of a computation over calm code *)

Definition run_events (w : World) (e : nat) : list event :=
  match effects w !! e with
  | None => []
  | Some c =>
    if isMounted c then Rendered e :: map (Invoke e "_u") (registered w e "_u")
    else map (Invoke e "_bu") (registered w e "_bu") ++ [Rendered e]
  end.

Definition run_reads (w : World) (e : nat) : list string :=
  match effects w !! e with
  | None => []
  | Some c =>
    if isMounted c
    then reads (props_of w e) (template c)
           ++ flat_map (reads (props_of w e)) (registered w e "_u")
    else flat_map (reads (props_of w e)) (registered w e "_bu")
           ++ reads (props_of w e) (template c)
  end.

Definition ran (e : nat) (c : Computation) (w : World) : World :=
  let w1 := with_activeEffect (Some e) (count_run e (cleanup e w)) in
  let body s := replays e (path (props_of w e) (template c)) s in
  with_activeEffect (activeEffect w)
    (if isMounted c
     then fired e "_u" (registered w e "_u") (log (Rendered e) (body w1))
     else set_mounted e
            (log (Rendered e) (body (fired e "_bu" (registered w e "_bu") w1)))).

Definition after_run (c : Computation) : Computation :=
  {| template := template c; isMounted := true; runs := S (runs c) |}.

(** ** A write reruns the dependents of the key *)

Definition rerun_one (w : World) (e : nat) : World :=
  match effects w !! e with
  | Some c => ran e c w
  | None => w
  end.

Definition rerun_all (l : list nat) (w : World) : World := foldl rerun_one w l.

(** How the world after rerunning [l] relates to the world before. *)
Record reran (l : list nat) (w w' : World) : Prop := {
  reran_instances : instances w' = instances w;
  reran_currentInstance : currentInstance w' = None;
  reran_customElements : customElements w' = customElements w;
  reran_activeEffect : activeEffect w' = activeEffect w;
  reran_effects : ∀ e,
    effects w' !! e = if decide (e ∈ l) then after_run <$> effects w !! e else effects w !! e;
  reran_trace : trace w' = trace w ++ flat_map (run_events w) l;
  reran_dependents : ∀ e o key,
    e ∈ dependents w' o key ↔
      if decide (e ∈ l ∧ is_Some (effects w !! e))
      then o = e ∧ key ∈ run_reads w e
      else e ∈ dependents w o key;
  reran_NoDups : NoDups w → NoDups w';
  reran_Calm : Calm w';
}.

(** ** Construction with a calm factory *)

Definition hook_of (name : string) (a : action) : option script :=
  match a with
  | Hooked m cb => if decide (field_name m = name) then Some cb else None
  | Tracked _ => None
  end.

(** The callbacks that a path registers under a field name, in order. *)
Definition hooked (name : string) (l : list action) : list script :=
  omap (hook_of name) l.

(** The world in which construction starts running the factory. *)
Definition entered (w : World) : World :=
  with_currentInstance (Some (length (instances w)))
    (with_instances (instances w ++ [fresh_instance]) w).

Definition first_effect (f : Factory) : Computation :=
  {| template := render f; isMounted := false; runs := 0 |}.

(** The worlds that construction with a calm factory goes through: after
    the factory has returned and the pointer is cleared, after the
    beforeMount callbacks, with the render computation created, and at the
    end. *)
Definition after_setup (f : Factory) (w : World) : World :=
  with_currentInstance None
    (replays (length (instances w)) (path ∅ (setup f)) (entered w)).

Definition after_beforeMount (f : Factory) (w : World) : World :=
  fired (length (instances w)) "_bm"
    (registered (after_setup f w) (length (instances w)) "_bm") (after_setup f w).

Definition with_first_effect (f : Factory) (w : World) : World :=
  with_effects
    (<[length (instances w) := first_effect f]> (effects (after_beforeMount f w)))
    (after_beforeMount f w).

Definition born (f : Factory) (w : World) : World :=
  ran (length (instances w)) (first_effect f) (with_first_effect f w).

(** ** Invariants of arbitrary user code *)

(** [ensures P o]: the world that [o] reached satisfies [P], however the
    execution ended. *)
Definition ensures (P : World → Prop) (o : outcome) : Prop :=
  match o with
  | Normal w => P w
  | Raised w => P w
  | Exhausted w => P w
  end.


Definition current_is (c : option nat) (w : World) : Prop := currentInstance w = c.


(** While no instance is current, no callback list of any instance changes. *)
Definition idle_since (w0 w : World) : Prop :=
  currentInstance w = None ∧ ∀ i name, field w i name = field w0 i name.

(** However the pointer stands, it stays as it is, and only the callback
    lists of the instance it refers to can change. *)
Definition aimed_since (w0 w : World) : Prop :=
  currentInstance w = currentInstance w0
  ∧ ∀ i name, currentInstance w0 ≠ Some i → field w i name = field w0 i name.

(** A component whose factory throws. *)
Definition thrower : ElementClass :=
  {| observedAttributes := []; factory := Some {| setup := Throw; render := Return |} |}.

(** A component that registers from inside a beforeMount callback and from
    inside its render function. *)
Definition late_hooks : Factory :=
  {| setup := Hook OnBeforeMount (Hook OnMounted Return Return) Return;
     render := Hook OnUpdated Return (Get "count" Return) |}.

Definition late_class : ElementClass :=
  {| observedAttributes := ["count"]; factory := Some late_hooks |}.

(** ** Reading the trace *)

Definition instance_of (ev : event) : nat :=
  match ev with
  | Invoke i _ _ => i
  | Rendered i => i
  end.

(** The events of one instance. *)
Definition events_of (i : nat) (tr : list event) : list event :=
  filter (λ ev, instance_of ev = i) tr.

Definition invoked_cb (i : nat) (name : string) (ev : event) : option script :=
  match ev with
  | Invoke j n cb => if decide (j = i ∧ n = name) then Some cb else None
  | Rendered _ => None
  end.

(** The callbacks invoked for one lifecycle point of one instance. *)
Definition invoked (i : nat) (name : string) (tr : list event) : list script :=
  omap (invoked_cb i name) tr.

(** A render function that reads [a] when [flag] is truthy and [b] otherwise. *)
Definition switch (flag a b : string) : script :=
  Branch flag (Get a Return) (Get b Return).

(** ** Two components *)

(** The scenario of the spec's section 8: one observed attribute, read by
    the render function, and a callback on three lifecycle points. *)
Definition counter : Factory :=
  {| setup :=
       Hook OnBeforeMount Return
         (Hook OnBeforeUpdate Return
            (Hook OnUpdated (Hook OnMounted Return Return) Return));
     render := Get "count" Return |}.

Definition counter_class : ElementClass :=
  {| observedAttributes := ["count"]; factory := Some counter |}.

Definition counter_world : World := born counter boot.

(** A component whose render function reads "a" or "b" depending on "flag". *)
Definition toggle : Factory :=
  {| setup := Return; render := switch "flag" "a" "b" |}.

Definition toggle_world : World := born toggle boot.

(** A render function that writes a key it has just read. *)
Definition self_writer : ElementClass :=
  {| observedAttributes := [];
     factory := Some {| setup := Return;
                        render := Get "x" (Put "x" (VString "1") Return) |} |}.

(** ** Worlds reached through the platform

    The steps by which the platform and top-level user code drive the
    library, for components whose code is calm. *)
Inductive transition : World → World → Prop :=
| by_define name propDefs third w w' :
    defineComponent name propDefs third w = Normal w' → transition w w'
| by_construct n cls f w w' :
    factory cls = Some f → calm (setup f) = true → calm (render f) = true →
    constructor (S n) cls w = Normal w' → transition w w'
| by_connected n this w w' :
    connectedCallback n this w = Normal w' → transition w w'
| by_disconnected n this w w' :
    disconnectedCallback n this w = Normal w' → transition w w'
| by_attribute n this name oldValue newValue w w' :
    attributeChangedCallback (S n) this name oldValue newValue w = Normal w' →
    transition w w'
| by_registration m cb w :
    transition w (export m cb w).

Inductive reachable : World → Prop :=
| reachable_boot : reachable boot
| reachable_step w w' : reachable w → transition w w' → reachable w'.

(** What holds in every such world. *)
Definition ready (w : World) : Prop :=
  Calm w ∧ NoDups w ∧ currentInstance w = None
  ∧ ∀ e c, effects w !! e = Some c → isMounted c = true.

(** ** User code that may throw but does not write props *)

Fixpoint quiet (s : script) : bool :=
  match s with
  | Return => true
  | Throw => true
  | Hook _ cb k => quiet cb && quiet k
  | Get _ k => quiet k
  | Put _ _ _ => false
  | Branch _ yes no => quiet yes && quiet no
  end.

(** Whether the branch that a script takes, given the props it sees, ends
    in a throw. *)
Fixpoint raises (ps : object) (s : script) : bool :=
  match s with
  | Return => false
  | Throw => true
  | Hook _ _ k => raises ps k
  | Get _ k => raises ps k
  | Put key v k => raises (assign key v ps) k
  | Branch key yes no =>
    if ToBoolean (member key ps) then raises ps yes else raises ps no
  end.

Definition finish (thrown : bool) (w : World) : outcome :=
  if thrown then Raised w else Normal w.

(** Every dependent of a key of an instance's props is that instance's own
    render computation. *)
Definition isolated (w : World) : bool :=
  forallb (λ p, forallb (Nat.eqb p.1.1) p.2) (map_to_list (targetMap w)).

Definition Isolated (w : World) : Prop :=
  ∀ o key e, e ∈ dependents w o key → e = o.

(** A factory body that first writes defaults into the props, then goes on
    as [k]. *)
Definition defaults (l : list (string * value)) (k : script) : script :=
  foldr (λ kv s, Put kv.1 kv.2 s) k l.

Definition writes (l : list (string * value)) (ps : object) : object :=
  foldl (λ m kv, assign kv.1 kv.2 m) ps l.

Definition stores (o : nat) (l : list (string * value)) (w : World) : World :=
  foldl (λ w kv, store o kv.1 kv.2 w) w l.

(** ** More components *)

(** The second of three beforeMount callbacks throws. *)
Definition fragile : Factory :=
  {| setup :=
       Hook OnBeforeMount Return
         (Hook OnBeforeMount Throw (Hook OnBeforeMount Return Return));
     render := Get "count" Return |}.

(** A render function that throws when "bad" is truthy. *)
Definition picky : Factory :=
  {| setup := Hook OnUpdated Return Return;
     render := Branch "bad" Throw (Get "count" Return) |}.

Definition picky_world : World :=
  match constructor 1 {| observedAttributes := ["bad"; "count"]; factory := Some picky |} boot with
  | Normal w => w
  | Raised w => w
  | Exhausted w => w
  end.



(** A factory that presets "flag" and registers a beforeUpdate callback. *)
Definition preset : Factory :=
  {| setup := defaults [("flag", VString "on")]
                (Hook OnBeforeUpdate (Get "seen" Return) Return);
     render := switch "flag" "a" "b" |}.

(** ** Basic facts *)

(** *** The props object *)

Lemma assign_ordinary key v o :
  key ≠ "__proto__" →
  assign key v o = {| own := <[key := v]> (own o); inherits := inherits o |}.
Proof.
  intros Hne. unfold assign. destruct (own o !! key); [done|].
  rewrite bool_decide_eq_false_2 by done. by rewrite andb_false_r.
Qed.

Lemma own_assign key v o :
  key ≠ "__proto__" → own (assign key v o) = <[key := v]> (own o).
Proof. intros Hne. by rewrite assign_ordinary. Qed.


Lemma member_assign_eq key v o :
  key ≠ "__proto__" → member key (assign key v o) = Value v.
Proof.
  intros Hne. unfold member. rewrite own_assign by done.
  by rewrite lookup_insert_eq.
Qed.


(** A string assigned to [__proto__] of an object that still inherits from
    [Object.prototype] is dropped. *)
Lemma assign_proto_string s o :
  inherits o = true → own o !! "__proto__" = None →
  assign "__proto__" (VString s) o = o.
Proof. intros Hi Ho. unfold assign. by rewrite Ho, Hi. Qed.

Lemma export_unfold m cb w : export m cb w = createLifecycleMethod (field_name m) cb w.
Proof. by destruct m. Qed.

Lemma props_of_alter_push name cb (i : nat) (l : list Instance) (j : nat) :
  from_option _props ∅ (alter (push name cb) i l !! j) = from_option _props ∅ (l !! j).
Proof.
  destruct (decide (i = j)) as [->|Hne].
  - rewrite list_lookup_alter_eq. by destruct (l !! j).
  - by rewrite list_lookup_alter_ne.
Qed.

Lemma props_of_createLifecycleMethod name cb w j :
  props_of (createLifecycleMethod name cb w) j = props_of w j.
Proof.
  unfold createLifecycleMethod, props_of. destruct (currentInstance w); [|done].
  apply props_of_alter_push.
Qed.

Lemma props_of_track o key w j : props_of (track o key w) j = props_of w j.
Proof. unfold track. destruct (activeEffect w); [|done]. by case_decide. Qed.

Lemma props_of_replay self a w j : props_of (replay self w a) j = props_of w j.
Proof.
  destruct a; simpl; [apply props_of_track|].
  rewrite export_unfold. apply props_of_createLifecycleMethod.
Qed.

Lemma peek_track self key w o k : peek self key (track o k w) = peek self key w.
Proof. unfold peek. by rewrite props_of_track. Qed.

(** Calm code runs to completion, whatever reruns would do, and does what
    its path says. *)
Lemma exec_calm rerun self s : ∀ w,
  calm s = true →
  exec rerun self s w = Normal (replays self (path (props_of w self) s) w).
Proof.
  induction s as [| |m cb _ k IH|key k IH|key v k IH|key yes IHy no IHn];
    intros w Hc; simpl in *; try done.
  - apply andb_prop in Hc as [_ Hk]. rewrite (IH _ Hk).
    rewrite export_unfold, props_of_createLifecycleMethod. done.
  - rewrite (IH _ Hc), props_of_track. done.
  - apply andb_prop in Hc as [Hy Hn]. unfold peek.
    destruct (ToBoolean _).
    + by rewrite (IHy _ Hy), props_of_track.
    + by rewrite (IHn _ Hn), props_of_track.
Qed.

(** *** What a registration changes *)

Lemma field_push_eq name cb inst :
  fields (push name cb inst) !! name = Some (default [] (fields inst !! name) ++ [cb]).
Proof. simpl. apply lookup_insert_eq. Qed.

Lemma field_push_ne name cb inst n :
  name ≠ n → fields (push name cb inst) !! n = fields inst !! n.
Proof. intros. simpl. by apply lookup_insert_ne. Qed.

Lemma field_createLifecycleMethod_eq name cb w i :
  currentInstance w = Some i → i < length (instances w) →
  field (createLifecycleMethod name cb w) i name = Some (registered w i name ++ [cb]).
Proof.
  intros Hc Hlt. unfold createLifecycleMethod, field, registered, field. rewrite Hc. simpl.
  rewrite list_lookup_alter_eq.
  destruct (lookup_lt_is_Some_2 _ _ Hlt) as [inst ->]. simpl.
  apply lookup_insert_eq.
Qed.

Lemma field_createLifecycleMethod_ne name cb w j n :
  currentInstance w ≠ Some j ∨ name ≠ n →
  field (createLifecycleMethod name cb w) j n = field w j n.
Proof.
  intros Hne. unfold createLifecycleMethod, field.
  destruct (currentInstance w) as [i|] eqn:Hc; [|done]. simpl.
  destruct (decide (i = j)) as [->|Hij].
  - destruct Hne as [?|Hn]; [done|].
    rewrite list_lookup_alter_eq. destruct (instances w !! j); [|done].
    simpl. by apply lookup_insert_ne.
  - by rewrite list_lookup_alter_ne.
Qed.

Lemma createLifecycleMethod_idle name cb w :
  currentInstance w = None → createLifecycleMethod name cb w = w.
Proof. unfold createLifecycleMethod. by intros ->. Qed.

Lemma length_createLifecycleMethod name cb w :
  length (instances (createLifecycleMethod name cb w)) = length (instances w).
Proof.
  unfold createLifecycleMethod. destruct (currentInstance w); [|done].
  simpl. apply length_alter.
Qed.

(** *** What a tracked read changes *)

Lemma track_idle o key w : activeEffect w = None → track o key w = w.
Proof. unfold track. by intros ->. Qed.

Lemma dependents_track o key w o' k' :
  dependents (track o key w) o' k' =
    match activeEffect w with
    | Some e =>
      if decide ((o, key) = (o', k') ∧ e ∉ dependents w o key)
      then dependents w o key ++ [e] else dependents w o' k'
    | None => dependents w o' k'
    end.
Proof.
  unfold track. destruct (activeEffect w) as [e|]; [|done].
  destruct (decide (e ∈ dependents w o key)) as [Hin|Hnin].
  - rewrite decide_False; [done|]. intros [_ ?]. done.
  - unfold dependents at 1. simpl.
    destruct (decide ((o, key) = (o', k'))) as [Heq|Hne].
    + rewrite decide_True by done. rewrite <- Heq, lookup_insert_eq. done.
    + rewrite decide_False by (intros [? _]; done).
      by rewrite lookup_insert_ne.
Qed.

Lemma elem_of_dependents_track o key w o' k' e :
  e ∈ dependents (track o key w) o' k' ↔
  e ∈ dependents w o' k' ∨ (activeEffect w = Some e ∧ o' = o ∧ k' = key).
Proof.
  rewrite dependents_track. destruct (activeEffect w) as [a|].
  - case_decide as Hd.
    + destruct Hd as [[= <- <-] Hnin]. rewrite elem_of_app, list_elem_of_singleton.
      split.
      * intros [?|Heq]; [by left|]. subst. by right.
      * intros [?|(Heq & _)]; [by left|]. right. congruence.
    + split; [by left|]. intros [?|([= ->] & -> & ->)]; [done|].
      apply not_and_l in Hd as [?|Hd]; [done|].
      by apply dec_stable in Hd.
  - split; [by left|]. by intros [?|[? _]].
Qed.

Lemma NoDup_dependents_track o key w o' k' :
  NoDup (dependents w o' k') → NoDup (dependents (track o key w) o' k').
Proof.
  intros Hnd. rewrite dependents_track. destruct (activeEffect w) as [a|]; [|done].
  case_decide as Hd; [|done]. destruct Hd as [[= <- <-] Hnin].
  apply NoDup_app. split_and!; [done| |apply NoDup_singleton].
  intros x Hx ->%list_elem_of_singleton. done.
Qed.

(** *** What the clearing of a dependency set changes *)

Lemma dependents_cleanup e w o key :
  dependents (cleanup e w) o key = filter (λ x, x ≠ e) (dependents w o key).
Proof.
  unfold dependents, cleanup. simpl. rewrite lookup_omap.
  destruct (targetMap w !! (o, key)) as [l|]; simpl; [|done].
  unfold without. by destruct (filter _ l).
Qed.

Lemma elem_of_dependents_cleanup e w o key x :
  x ∈ dependents (cleanup e w) o key ↔ x ≠ e ∧ x ∈ dependents w o key.
Proof. rewrite dependents_cleanup, list_elem_of_filter. done. Qed.

Lemma NoDup_dependents_cleanup e w o key :
  NoDup (dependents w o key) → NoDup (dependents (cleanup e w) o key).
Proof. rewrite dependents_cleanup. apply NoDup_filter. Qed.

(** *** Replaying a path *)

(** For a projection that neither a tracked read nor a registration touches. *)
Ltac untouched :=
  let w := fresh "w" in
  intros w [?|? ?]; simpl;
  [ unfold track; destruct (activeEffect w) eqn:?; [case_decide|]; done
  | rewrite export_unfold; unfold createLifecycleMethod;
    by destruct (currentInstance w) eqn:? ].

Section Replays.
Variable self : nat.

Lemma replays_cons a l w : replays self (a :: l) w = replays self l (replay self w a).
Proof. done. Qed.

Lemma replays_preserve {A} (f : World → A) :
  (∀ w a, f (replay self w a) = f w) →
  ∀ l w, f (replays self l w) = f w.
Proof.
  intros Hf l. induction l as [|a l IH]; intros w; [done|].
  rewrite replays_cons, IH. apply Hf.
Qed.

Lemma trace_replays l w : trace (replays self l w) = trace w.
Proof. apply (replays_preserve trace). untouched. Qed.

Lemma effects_replays l w : effects (replays self l w) = effects w.
Proof. apply (replays_preserve effects). untouched. Qed.

Lemma activeEffect_replays l w : activeEffect (replays self l w) = activeEffect w.
Proof. apply (replays_preserve activeEffect). untouched. Qed.

Lemma currentInstance_replays l w : currentInstance (replays self l w) = currentInstance w.
Proof. apply (replays_preserve currentInstance). untouched. Qed.

Lemma customElements_replays l w : customElements (replays self l w) = customElements w.
Proof. apply (replays_preserve customElements). untouched. Qed.

Lemma props_of_replays l w j : props_of (replays self l w) j = props_of w j.
Proof.
  apply (replays_preserve (λ w, props_of w j)). intros. apply props_of_replay.
Qed.

Lemma length_instances_replays l w :
  length (instances (replays self l w)) = length (instances w).
Proof.
  apply (replays_preserve (λ w, length (instances w))). intros w' [key|m cb]; simpl.
  - unfold track. destruct (activeEffect w'); [|done]. by case_decide.
  - rewrite export_unfold. apply length_createLifecycleMethod.
Qed.

(** With no instance current, registrations do nothing. *)
Lemma instances_replays_idle l : ∀ w,
  currentInstance w = None → instances (replays self l w) = instances w.
Proof.
  induction l as [|a l IH]; intros w Hc; [done|].
  rewrite replays_cons, IH.
  - destruct a as [key|m cb]; simpl.
    + unfold track. destruct (activeEffect w); [|done]. by case_decide.
    + by rewrite export_unfold, createLifecycleMethod_idle.
  - rewrite <- Hc. apply (currentInstance_replays [a]).
Qed.

(** With no computation active, reads are not tracked. *)
Lemma targetMap_replays_idle l : ∀ w,
  activeEffect w = None → targetMap (replays self l w) = targetMap w.
Proof.
  induction l as [|a l IH]; intros w Hc; [done|].
  rewrite replays_cons, IH.
  - destruct a as [key|m cb]; simpl.
    + by rewrite track_idle.
    + rewrite export_unfold. unfold createLifecycleMethod. by destruct (currentInstance w).
  - rewrite <- Hc. apply (activeEffect_replays [a]).
Qed.

Lemma dependents_hook m cb w o key :
  dependents (export m cb w) o key = dependents w o key.
Proof.
  rewrite export_unfold. unfold createLifecycleMethod. by destruct (currentInstance w).
Qed.

(** The active computation becomes a dependent of every key on the path. *)
Lemma elem_of_dependents_replays l : ∀ w o key e,
  e ∈ dependents (replays self l w) o key ↔
  e ∈ dependents w o key ∨ (activeEffect w = Some e ∧ o = self ∧ key ∈ omap key_of l).
Proof.
  induction l as [|a l IH]; intros w o key e.
  - simpl. rewrite elem_of_nil. tauto.
  - rewrite replays_cons, IH.
    pose proof (activeEffect_replays [a] w) as Ha.
    change (replays self [a] w) with (replay self w a) in Ha. rewrite Ha. clear Ha.
    destruct a as [k'|m cb]; simpl.
    + rewrite elem_of_dependents_track, elem_of_cons. clear. intuition (subst; auto).
    + rewrite dependents_hook. tauto.
Qed.

Lemma NoDup_dependents_replays l : ∀ w o key,
  NoDup (dependents w o key) → NoDup (dependents (replays self l w) o key).
Proof.
  induction l as [|a l IH]; intros w o key Hnd; [done|].
  rewrite replays_cons. apply IH. destruct a as [k'|m cb]; simpl.
  - by apply NoDup_dependents_track.
  - by rewrite dependents_hook.
Qed.
End Replays.

Lemma all_calm_cons s l : all_calm (s :: l) = true ↔ calm s = true ∧ all_calm l = true.
Proof. unfold all_calm. simpl. apply andb_true_iff. Qed.


Lemma forEach_calm rerun i name cbs : ∀ w,
  all_calm cbs = true →
  forEach (λ cb w, exec rerun i cb (log (Invoke i name cb) w)) cbs w
    = Normal (fired i name cbs w).
Proof.
  induction cbs as [|cb cbs IH]; intros w Hc; [done|].
  apply all_calm_cons in Hc as [Hcb Hcbs]. simpl.
  rewrite (exec_calm _ _ _ _ Hcb). simpl. rewrite (IH _ Hcbs). done.
Qed.

Section Fired.
Variables (i : nat) (name : string).

Lemma fired_cons cb cbs w :
  fired i name (cb :: cbs) w = fired i name cbs (call_cb i name w cb).
Proof. done. Qed.

Lemma fired_preserve {A} (f : World → A) :
  (∀ w cb, f (call_cb i name w cb) = f w) →
  ∀ cbs w, f (fired i name cbs w) = f w.
Proof.
  intros Hf cbs. induction cbs as [|cb cbs IH]; intros w; [done|].
  rewrite fired_cons, IH. apply Hf.
Qed.

Lemma effects_fired cbs w : effects (fired i name cbs w) = effects w.
Proof. apply (fired_preserve effects). intros. unfold call_cb. by rewrite effects_replays. Qed.

Lemma activeEffect_fired cbs w : activeEffect (fired i name cbs w) = activeEffect w.
Proof.
  apply (fired_preserve activeEffect). intros. unfold call_cb.
  by rewrite activeEffect_replays.
Qed.

Lemma currentInstance_fired cbs w : currentInstance (fired i name cbs w) = currentInstance w.
Proof.
  apply (fired_preserve currentInstance). intros. unfold call_cb.
  by rewrite currentInstance_replays.
Qed.

Lemma customElements_fired cbs w : customElements (fired i name cbs w) = customElements w.
Proof.
  apply (fired_preserve customElements). intros. unfold call_cb.
  by rewrite customElements_replays.
Qed.

Lemma props_of_fired cbs w j : props_of (fired i name cbs w) j = props_of w j.
Proof.
  apply (fired_preserve (λ w, props_of w j)). intros. unfold call_cb.
  by rewrite props_of_replays.
Qed.

Lemma length_instances_fired cbs w :
  length (instances (fired i name cbs w)) = length (instances w).
Proof.
  apply (fired_preserve (λ w, length (instances w))). intros. unfold call_cb.
  by rewrite length_instances_replays.
Qed.

Lemma trace_fired cbs : ∀ w,
  trace (fired i name cbs w) = trace w ++ map (Invoke i name) cbs.
Proof.
  induction cbs as [|cb cbs IH]; intros w.
  - simpl. by rewrite app_nil_r.
  - rewrite fired_cons, IH. unfold call_cb. rewrite trace_replays. simpl.
    by rewrite <- app_assoc.
Qed.

Lemma instances_fired_idle cbs : ∀ w,
  currentInstance w = None → instances (fired i name cbs w) = instances w.
Proof.
  induction cbs as [|cb cbs IH]; intros w Hc; [done|].
  rewrite fired_cons, IH.
  - unfold call_cb. by rewrite instances_replays_idle.
  - unfold call_cb. by rewrite currentInstance_replays.
Qed.

Lemma targetMap_fired_idle cbs : ∀ w,
  activeEffect w = None → targetMap (fired i name cbs w) = targetMap w.
Proof.
  induction cbs as [|cb cbs IH]; intros w Hc; [done|].
  rewrite fired_cons, IH.
  - unfold call_cb. by rewrite targetMap_replays_idle.
  - unfold call_cb. by rewrite activeEffect_replays.
Qed.

Lemma elem_of_dependents_fired cbs : ∀ w o key e,
  e ∈ dependents (fired i name cbs w) o key ↔
  e ∈ dependents w o key ∨
  (activeEffect w = Some e ∧ o = i ∧ key ∈ flat_map (reads (props_of w i)) cbs).
Proof.
  induction cbs as [|cb cbs IH]; intros w o key e.
  - simpl. rewrite elem_of_nil. tauto.
  - rewrite fired_cons, IH. unfold call_cb at 1 2 3.
    rewrite activeEffect_replays, props_of_replays, elem_of_dependents_replays.
    simpl. rewrite elem_of_app. unfold reads.
    change (props_of (log (Invoke i name cb) w) i) with (props_of w i).
    change (dependents (log (Invoke i name cb) w) o key) with (dependents w o key).
    tauto.
Qed.

Lemma NoDup_dependents_fired cbs : ∀ w o key,
  NoDup (dependents w o key) → NoDup (dependents (fired i name cbs w) o key).
Proof.
  induction cbs as [|cb cbs IH]; intros w o key Hnd; [done|].
  rewrite fired_cons. apply IH. unfold call_cb. by apply NoDup_dependents_replays.
Qed.
End Fired.

(** [fire] on calm callbacks. *)
Lemma fire_calm rerun i name w :
  all_calm (registered w i name) = true →
  fire rerun i name w = Normal (fired i name (registered w i name) w).
Proof.
  unfold fire, registered. destruct (field w i name) as [cbs|]; simpl; [|done].
  apply forEach_calm.
Qed.

Lemma calm_world_Calm w : calm_world w = true → Calm w.
Proof.
  unfold calm_world. intros [Hi He]%andb_prop. split.
  - intros i name. unfold registered, field.
    destruct (instances w !! i) as [inst|] eqn:Hinst; [|done]. simpl.
    destruct (fields inst !! name) as [l|] eqn:Hl; [|done]. simpl.
    rewrite forallb_forall in Hi.
    assert (calm_instance inst = true) as Hci.
    { apply Hi, list_elem_of_In, list_elem_of_lookup. eauto. }
    unfold calm_instance in Hci. rewrite forallb_forall in Hci.
    apply (Hci (name, l)), list_elem_of_In, elem_of_map_to_list. done.
  - intros e c Hc. rewrite forallb_forall in He.
    apply (He (e, c)), list_elem_of_In, elem_of_map_to_list. done.
Qed.

Lemma tracker_nodup_NoDups w : tracker_nodup w = true → NoDups w.
Proof.
  unfold tracker_nodup. intros H o key. unfold dependents.
  destruct (targetMap w !! (o, key)) as [l|] eqn:Hl; simpl; [|apply NoDup_nil_2].
  rewrite forallb_forall in H.
  specialize (H ((o, key), l)). simpl in H.
  assert (bool_decide (NoDup l) = true) as Hb.
  { apply H, list_elem_of_In, elem_of_map_to_list. done. }
  by apply bool_decide_eq_true_1 in Hb.
Qed.

Lemma mounted_with_activeEffect a w e : mounted (with_activeEffect a w) e = mounted w e.
Proof. done. Qed.

Lemma mounted_count_run e c w :
  effects w !! e = Some c → mounted (count_run e w) e = isMounted c.
Proof. intros H. unfold mounted, count_run. simpl. rewrite lookup_alter_eq, H. done. Qed.

Lemma run_calm n e c w :
  currentInstance w = None → effects w !! e = Some c →
  calm (template c) = true →
  all_calm (registered w e "_bu") = true →
  all_calm (registered w e "_u") = true →
  run (S n) e w = Normal (ran e c w).
Proof.
  intros Hcur He Htm Hbu Hu. simpl. rewrite He.
  set (w1 := with_activeEffect (Some e) (count_run e (cleanup e w))).
  assert (effects w1 !! e =
    Some {| template := template c; isMounted := isMounted c; runs := S (runs c) |}) as He1.
  { simpl. by rewrite lookup_alter_eq, He. }
  assert (mounted w1 e = isMounted c) as Hm1.
  { unfold mounted. by rewrite He1. }
  unfold effect_fn. rewrite He1, Hm1. simpl template.
  unfold ran. fold w1. destruct (isMounted c) eqn:Hm; simpl negb; cbv iota.
  - simpl bind at 2.
    rewrite (exec_calm _ _ _ _ Htm). simpl bind.
    change (props_of w1 e) with (props_of w e).
    set (w3 := replays e _ w1).
    assert (mounted (log (Rendered e) w3) e = true) as ->.
    { unfold mounted. simpl. unfold w3. by rewrite effects_replays, He1. }
    assert (instances (log (Rendered e) w3) = instances w) as Hinst.
    { simpl. unfold w3. by rewrite instances_replays_idle. }
    rewrite fire_calm; unfold registered, field in *; rewrite Hinst; done.
  - rewrite fire_calm by apply Hbu. simpl bind at 2.
    change (registered w1 e "_bu") with (registered w e "_bu").
    rewrite (exec_calm _ _ _ _ Htm). simpl bind.
    rewrite props_of_fired. change (props_of w1 e) with (props_of w e).
    set (w3 := replays e _ _).
    assert (mounted (log (Rendered e) w3) e = false) as ->.
    { unfold mounted. simpl. unfold w3. by rewrite effects_replays, effects_fired, He1. }
    done.
Qed.

Lemma run_Calm n e c w :
  Calm w → currentInstance w = None → effects w !! e = Some c →
  run (S n) e w = Normal (ran e c w).
Proof.
  intros [Hcb Htm] Hcur He. apply run_calm; try done. by eapply Htm.
Qed.

Section Ran.
Variables (e : nat) (c : Computation) (w : World).

Lemma currentInstance_ran : currentInstance (ran e c w) = currentInstance w.
Proof.
  unfold ran.
  destruct (isMounted c); cbn [currentInstance with_activeEffect set_mounted with_effects log].
  - rewrite currentInstance_fired. cbn [currentInstance log].
    by rewrite currentInstance_replays.
  - by rewrite currentInstance_replays, currentInstance_fired.
Qed.

Lemma customElements_ran : customElements (ran e c w) = customElements w.
Proof.
  unfold ran.
  destruct (isMounted c); cbn [customElements with_activeEffect set_mounted with_effects log].
  - rewrite customElements_fired. cbn [customElements log].
    by rewrite customElements_replays.
  - by rewrite customElements_replays, customElements_fired.
Qed.

Lemma activeEffect_ran : activeEffect (ran e c w) = activeEffect w.
Proof. done. Qed.

Lemma instances_ran : currentInstance w = None → instances (ran e c w) = instances w.
Proof.
  intros Hc. unfold ran. destruct (isMounted c).
  - change (instances (with_activeEffect ?a ?x)) with (instances x).
    rewrite instances_fired_idle.
    + change (instances (log ?a ?x)) with (instances x).
      by rewrite instances_replays_idle.
    + change (currentInstance (log ?a ?x)) with (currentInstance x).
      by rewrite currentInstance_replays.
  - change (instances (with_activeEffect ?a (set_mounted ?b (log ?d ?x))))
      with (instances x).
    rewrite instances_replays_idle.
    + by rewrite instances_fired_idle.
    + by rewrite currentInstance_fired.
Qed.

Lemma props_of_ran j : props_of (ran e c w) j = props_of w j.
Proof.
  unfold ran. destruct (isMounted c).
  - change (props_of (with_activeEffect ?a ?x) j) with (props_of x j).
    rewrite props_of_fired.
    change (props_of (log ?a ?x) j) with (props_of x j).
    by rewrite props_of_replays.
  - change (props_of (with_activeEffect ?a ?x) j) with (props_of x j).
    change (props_of (set_mounted ?a ?x) j) with (props_of x j).
    change (props_of (log ?a ?x) j) with (props_of x j).
    by rewrite props_of_replays, props_of_fired.
Qed.

Lemma effects_ran :
  effects w !! e = Some c → effects (ran e c w) = <[e := after_run c]> (effects w).
Proof.
  intros He. unfold ran.
  destruct (isMounted c) eqn:Hm; cbn [effects with_activeEffect set_mounted with_effects log].
  - rewrite effects_fired. cbn [effects log]. rewrite effects_replays. simpl.
    apply map_eq. intros j. destruct (decide (e = j)) as [<-|Hne].
    + rewrite lookup_alter_eq, lookup_insert_eq, He. simpl.
      unfold after_run. by rewrite Hm.
    + by rewrite lookup_alter_ne, lookup_insert_ne.
  - rewrite effects_replays, effects_fired. simpl.
    apply map_eq. intros j. destruct (decide (e = j)) as [<-|Hne].
    + by rewrite !lookup_alter_eq, lookup_insert_eq, He.
    + by rewrite !lookup_alter_ne, lookup_insert_ne.
Qed.

Lemma trace_ran :
  trace (ran e c w) = trace w ++
    (if isMounted c then Rendered e :: map (Invoke e "_u") (registered w e "_u")
     else map (Invoke e "_bu") (registered w e "_bu") ++ [Rendered e]).
Proof.
  unfold ran.
  destruct (isMounted c); cbn [trace with_activeEffect set_mounted with_effects log].
  - rewrite trace_fired. cbn [trace log]. rewrite trace_replays. simpl.
    by rewrite <- app_assoc.
  - rewrite trace_replays, trace_fired. simpl. by rewrite <- app_assoc.
Qed.

(** The dependency set is rebuilt: the computation depends on exactly the
    keys read during this run; other computations keep their dependencies. *)
Lemma elem_of_dependents_ran e' o key :
  e' ∈ dependents (ran e c w) o key ↔
  (e' ≠ e ∧ e' ∈ dependents w o key) ∨
  (e' = e ∧ o = e ∧ key ∈
     if isMounted c
     then reads (props_of w e) (template c)
            ++ flat_map (reads (props_of w e)) (registered w e "_u")
     else flat_map (reads (props_of w e)) (registered w e "_bu")
            ++ reads (props_of w e) (template c)).
Proof.
  unfold ran. destruct (isMounted c).
  - change (dependents (with_activeEffect ?a ?x) o key) with (dependents x o key).
    rewrite elem_of_dependents_fired.
    change (activeEffect (log ?a ?x)) with (activeEffect x).
    change (props_of (log ?a ?x) e) with (props_of x e).
    change (dependents (log ?a ?x) o key) with (dependents x o key).
    rewrite activeEffect_replays, props_of_replays, elem_of_dependents_replays.
    change (dependents (with_activeEffect ?a (count_run ?b ?x)) o key)
      with (dependents x o key).
    change (props_of (with_activeEffect ?a (count_run ?b (cleanup ?d ?x))) e)
      with (props_of x e).
    cbn [activeEffect with_activeEffect].
    rewrite elem_of_dependents_cleanup, elem_of_app. unfold reads.
    split; [intros [[?|(?&?&?)]|(?&?&?)]|intros [?|(?&?&[?|?])]];
      simplify_eq; tauto.
  - change (dependents (with_activeEffect ?a (set_mounted ?b (log ?d ?x))) o key)
      with (dependents x o key).
    rewrite elem_of_dependents_replays, activeEffect_fired, elem_of_dependents_fired.
    change (dependents (with_activeEffect ?a (count_run ?b ?x)) o key)
      with (dependents x o key).
    change (props_of (with_activeEffect ?a (count_run ?b (cleanup ?d ?x))) e)
      with (props_of x e).
    cbn [activeEffect with_activeEffect].
    rewrite elem_of_dependents_cleanup, elem_of_app. unfold reads.
    split; [intros [[?|(?&?&?)]|(?&?&?)]|intros [?|(?&?&[?|?])]];
      simplify_eq; tauto.
Qed.

Lemma NoDup_dependents_ran o key :
  NoDup (dependents w o key) → NoDup (dependents (ran e c w) o key).
Proof.
  intros Hnd. unfold ran. destruct (isMounted c).
  - change (dependents (with_activeEffect ?a ?x) o key) with (dependents x o key).
    apply NoDup_dependents_fired.
    change (dependents (log ?a ?x) o key) with (dependents x o key).
    apply NoDup_dependents_replays.
    change (dependents (with_activeEffect ?a (count_run ?b ?x)) o key)
      with (dependents x o key).
    by apply NoDup_dependents_cleanup.
  - change (dependents (with_activeEffect ?a (set_mounted ?b (log ?d ?x))) o key)
      with (dependents x o key).
    apply NoDup_dependents_replays, NoDup_dependents_fired.
    change (dependents (with_activeEffect ?a (count_run ?b ?x)) o key)
      with (dependents x o key).
    by apply NoDup_dependents_cleanup.
Qed.
End Ran.

Lemma Calm_ran e c w :
  Calm w → currentInstance w = None → effects w !! e = Some c → Calm (ran e c w).
Proof.
  intros [Hcb Htm] Hcur He. split.
  - intros i name. unfold registered, field. rewrite instances_ran by done. apply Hcb.
  - intros e' c'. rewrite effects_ran by done.
    destruct (decide (e = e')) as [<-|Hne].
    + rewrite lookup_insert_eq. intros [= <-]. simpl. by eapply Htm.
    + rewrite lookup_insert_ne by done. apply Htm.
Qed.

Lemma reran_nil w : Calm w → currentInstance w = None → reran [] w w.
Proof.
  intros HC Hcur. split; try done.
  simpl. by rewrite app_nil_r.
Qed.

Lemma run_events_ext w w' e :
  instances w' = instances w → effects w' !! e = effects w !! e →
  run_events w' e = run_events w e.
Proof. intros Hi He. unfold run_events, registered, field. by rewrite Hi, He. Qed.

Lemma run_reads_ext w w' e :
  instances w' = instances w → effects w' !! e = effects w !! e →
  run_reads w' e = run_reads w e.
Proof. intros Hi He. unfold run_reads, registered, field, props_of. by rewrite Hi, He. Qed.

Lemma flat_map_ext_in_list {A B} (f g : A → list B) (l : list A) :
  (∀ x, x ∈ l → f x = g x) → flat_map f l = flat_map g l.
Proof.
  induction l as [|a l IH]; intros H; [done|]. simpl.
  rewrite H by apply list_elem_of_here. rewrite IH; [done|].
  intros x Hx. by apply H, list_elem_of_further.
Qed.

Lemma reran_cons_Some e c l w w' :
  Calm w → currentInstance w = None → effects w !! e = Some c → e ∉ l →
  reran l (ran e c w) w' → reran (e :: l) w w'.
Proof.
  intros HC Hcur He Hnin [Hi Hc Hce Ha Hef Htr Hd Hnd Hcalm].
  assert (instances (ran e c w) = instances w) as Hi1 by by apply instances_ran.
  split; try done.
  - by rewrite Hi.
  - by rewrite Hce, customElements_ran.
  - intros x. rewrite Hef, effects_ran by done.
    destruct (decide (x = e)) as [->|Hne].
    + rewrite decide_False by done. rewrite decide_True by apply list_elem_of_here.
      by rewrite lookup_insert_eq, He.
    + rewrite lookup_insert_ne by done.
      destruct (decide (x ∈ l)) as [Hx|Hx].
      * rewrite decide_True by by apply list_elem_of_further. done.
      * rewrite decide_False; [done|]. by intros [?|?]%elem_of_cons.
  - rewrite Htr, trace_ran. simpl. rewrite <- app_assoc. f_equal.
    unfold run_events at 2. rewrite He. f_equal.
    apply flat_map_ext_in_list. intros x Hx. apply run_events_ext; [done|].
    rewrite effects_ran by done. apply lookup_insert_ne. intros ->. done.
  - intros x o key. rewrite Hd. rewrite effects_ran by done.
    destruct (decide (x = e)) as [->|Hne].
    + rewrite decide_False by (intros [? _]; done).
      rewrite decide_True by (split; [apply list_elem_of_here|by rewrite He]).
      rewrite elem_of_dependents_ran. unfold run_reads. rewrite He.
      split; [intros [[? _]|(_ & ? & ?)]; done|intros [? ?]; right; done].
    + rewrite lookup_insert_ne by done.
      destruct (decide (x ∈ l ∧ is_Some (effects w !! x))) as [[Hx Hs]|Hx].
      * rewrite decide_True by (split; [by apply list_elem_of_further|done]).
        rewrite (run_reads_ext w (ran e c w) x); [done|done|].
        rewrite effects_ran by done. by apply lookup_insert_ne.
      * rewrite decide_False.
        -- rewrite elem_of_dependents_ran. split; [intros [[_ ?]|[? _]]; done|].
           intros ?. by left.
        -- intros [[?|?]%elem_of_cons ?]; [done|]. apply Hx. done.
  - intros HN. apply Hnd. intros o key. apply NoDup_dependents_ran, HN.
Qed.

Lemma reran_cons_None e l w w' :
  effects w !! e = None → reran l w w' → reran (e :: l) w w'.
Proof.
  intros He [Hi Hc Hce Ha Hef Htr Hd Hnd Hcalm]. split; try done.
  - intros x. rewrite Hef. destruct (decide (x = e)) as [->|Hne].
    + rewrite He. simpl. by repeat case_decide.
    + destruct (decide (x ∈ l)) as [Hx|Hx].
      * rewrite decide_True by by apply list_elem_of_further. done.
      * rewrite decide_False; [done|]. by intros [?|?]%elem_of_cons.
  - rewrite Htr. simpl. unfold run_events at 2. by rewrite He.
  - intros x o key. rewrite Hd.
    destruct (decide (x ∈ l ∧ is_Some (effects w !! x))) as [[Hx Hs]|Hx].
    + rewrite decide_True by (split; [by apply list_elem_of_further|done]). done.
    + rewrite decide_False; [done|].
      intros [[->|?]%elem_of_cons Hs]; [|by apply Hx].
      rewrite He in Hs. by destruct Hs.
Qed.

Lemma rerun_all_reran l : ∀ w,
  Calm w → currentInstance w = None → NoDup l → reran l w (rerun_all l w).
Proof.
  induction l as [|e l IH]; intros w HC Hcur Hnd.
  - by apply reran_nil.
  - apply NoDup_cons in Hnd as [Hnin Hnd].
    change (rerun_all (e :: l) w) with (rerun_all l (rerun_one w e)).
    unfold rerun_one. destruct (effects w !! e) as [c|] eqn:He.
    + apply (reran_cons_Some e c); try done. apply IH; [by apply Calm_ran| |done].
      by rewrite currentInstance_ran.
    + apply reran_cons_None; [done|]. by apply IH.
Qed.

Lemma forEach_run_calm n l : ∀ w,
  Calm w → currentInstance w = None →
  forEach (run (S n)) l w = Normal (rerun_all l w).
Proof.
  induction l as [|e l IH]; intros w HC Hcur; [done|].
  cbn [forEach]. change (rerun_all (e :: l) w) with (rerun_all l (rerun_one w e)).
  unfold rerun_one. destruct (effects w !! e) as [c|] eqn:He.
  - rewrite (run_Calm n e c) by done. cbn [bind]. apply IH; [by apply Calm_ran|].
    by rewrite currentInstance_ran.
  - cbn [run]. rewrite He. cbn [bind]. by apply IH.
Qed.

Lemma props_of_rerun_all l j : ∀ w, props_of (rerun_all l w) j = props_of w j.
Proof.
  induction l as [|e l IH]; intros w; [done|].
  change (rerun_all (e :: l) w) with (rerun_all l (rerun_one w e)).
  rewrite IH. unfold rerun_one. destruct (effects w !! e); [|done].
  apply props_of_ran.
Qed.

(** *** The raw store *)

Lemma props_of_store_eq o key v w :
  o < length (instances w) →
  props_of (store o key v w) o = assign key v (props_of w o).
Proof.
  intros Hlt. unfold props_of, store. simpl. rewrite list_lookup_alter_eq.
  by destruct (lookup_lt_is_Some_2 _ _ Hlt) as [inst ->].
Qed.


Lemma field_store o key v w i name : field (store o key v w) i name = field w i name.
Proof.
  unfold field, store. simpl. destruct (decide (o = i)) as [->|Hne].
  - rewrite list_lookup_alter_eq. by destruct (instances w !! i).
  - by rewrite list_lookup_alter_ne.
Qed.

Lemma registered_store o key v w i name :
  registered (store o key v w) i name = registered w i name.
Proof. unfold registered. by rewrite field_store. Qed.

Lemma Calm_store o key v w : Calm w → Calm (store o key v w).
Proof.
  intros [Hcb Htm]. split; [|done]. intros i name. rewrite registered_store. apply Hcb.
Qed.

Lemma run_events_store o key v w e : run_events (store o key v w) e = run_events w e.
Proof. unfold run_events. by rewrite !registered_store. Qed.

(** A write in a calm world: the value is stored and each dependent of the
    key is rerun once, in registration order. *)
Lemma write_calm n o key v w :
  Calm w → currentInstance w = None →
  reactive_set (run (S n)) o key v w
    = Normal (rerun_all (dependents w o key) (store o key v w)).
Proof.
  intros HC Hcur. unfold reactive_set, trigger.
  change (dependents (store o key v w) o key) with (dependents w o key).
  apply forEach_run_calm; [by apply Calm_store|done].
Qed.

Lemma write_reran o key v w :
  Calm w → NoDups w → currentInstance w = None →
  reran (dependents w o key) (store o key v w)
        (rerun_all (dependents w o key) (store o key v w)).
Proof.
  intros HC HN Hcur. apply rerun_all_reran; [by apply Calm_store|done|apply HN].
Qed.

Lemma registered_export m cb w i name :
  currentInstance w = Some i → i < length (instances w) →
  registered (export m cb w) i name =
    registered w i name ++ (if decide (field_name m = name) then [cb] else []).
Proof.
  intros Hc Hlt. rewrite export_unfold. unfold registered at 1.
  case_decide as Hn.
  - subst name. by rewrite field_createLifecycleMethod_eq.
  - rewrite field_createLifecycleMethod_ne by by right. by rewrite app_nil_r.
Qed.

Lemma field_export_other m cb w j name :
  currentInstance w ≠ Some j → field (export m cb w) j name = field w j name.
Proof. intros. rewrite export_unfold. apply field_createLifecycleMethod_ne. by left. Qed.

Lemma field_track o key w i name : field (track o key w) i name = field w i name.
Proof. unfold track. destruct (activeEffect w); [|done]. by case_decide. Qed.

Lemma registered_replays self name l : ∀ w i,
  currentInstance w = Some i → i < length (instances w) →
  registered (replays self l w) i name = registered w i name ++ hooked name l.
Proof.
  induction l as [|a l IH]; intros w i Hc Hlt.
  - simpl. by rewrite app_nil_r.
  - rewrite replays_cons, IH.
    + destruct a as [key|m cb]; simpl.
      * unfold registered. by rewrite field_track.
      * rewrite registered_export by done. rewrite <- app_assoc. f_equal.
        unfold hooked. simpl. by case_decide.
    + rewrite <- Hc. apply (currentInstance_replays self [a]).
    + pose proof (length_instances_replays self [a] w) as Hl.
      change (replays self [a] w) with (replay self w a) in Hl. by rewrite Hl.
Qed.

Lemma field_replays_other self l j name : ∀ w,
  currentInstance w ≠ Some j → field (replays self l w) j name = field w j name.
Proof.
  induction l as [|a l IH]; intros w Hc; [done|].
  rewrite replays_cons, IH.
  - destruct a as [key|m cb]; simpl; [apply field_track|by apply field_export_other].
  - pose proof (currentInstance_replays self [a] w) as Hl.
    change (replays self [a] w) with (replay self w a) in Hl. by rewrite Hl.
Qed.

Lemma all_calm_hooked name ps s : calm s = true → all_calm (hooked name (path ps s)) = true.
Proof.
  revert ps. induction s as [| |m cb _ k IH|key k IH|key v k IH|key yes IHy no IHn];
    intros ps Hc; simpl in *; try done.
  - apply andb_prop in Hc as [Hcb Hk]. unfold hooked. simpl. case_decide.
    + apply all_calm_cons. split; [done|]. by apply IH.
    + by apply IH.
  - by apply IH.
  - apply andb_prop in Hc as [Hy Hn]. unfold hooked. simpl.
    destruct (ToBoolean _); [by apply IHy|by apply IHn].
Qed.

Lemma props_of_entered w : props_of (entered w) (length (instances w)) = ∅.
Proof.
  unfold props_of, entered. simpl.
  rewrite lookup_app_r by done. by rewrite Nat.sub_diag.
Qed.

Lemma registered_entered w name : registered (entered w) (length (instances w)) name = [].
Proof.
  unfold registered, field, entered. simpl.
  rewrite lookup_app_r by done. by rewrite Nat.sub_diag.
Qed.

Lemma registered_setup f w name :
  registered (replays (length (instances w)) (path ∅ (setup f)) (entered w))
             (length (instances w)) name
  = hooked name (path ∅ (setup f)).
Proof.
  rewrite registered_replays; [by rewrite registered_entered|done|].
  unfold entered. simpl. rewrite length_app. simpl. lia.
Qed.

Lemma registered_after_setup f w name :
  registered (after_setup f w) (length (instances w)) name
  = hooked name (path ∅ (setup f)).
Proof. apply registered_setup. Qed.

Lemma currentInstance_after_beforeMount f w :
  currentInstance (after_beforeMount f w) = None.
Proof. unfold after_beforeMount. by rewrite currentInstance_fired. Qed.

Lemma instances_after_beforeMount f w :
  instances (after_beforeMount f w) = instances (after_setup f w).
Proof. unfold after_beforeMount. by rewrite instances_fired_idle. Qed.

Lemma registered_after_beforeMount f w name :
  registered (after_beforeMount f w) (length (instances w)) name
  = hooked name (path ∅ (setup f)).
Proof.
  unfold registered, field. rewrite instances_after_beforeMount.
  apply registered_after_setup.
Qed.

Lemma constructor_calm n cls f w :
  factory cls = Some f → calm (setup f) = true → calm (render f) = true →
  constructor (S n) cls w = Normal (born f w).
Proof.
  intros Hf Hs Hr. unfold constructor. rewrite Hf. fold (entered w).
  rewrite (exec_calm _ _ _ _ Hs). rewrite props_of_entered. cbn [bind].
  fold (after_setup f w).
  rewrite fire_calm by (rewrite registered_after_setup; by apply all_calm_hooked).
  cbn [bind]. fold (after_beforeMount f w).
  unfold effect. fold (with_first_effect f w).
  apply run_calm.
  - apply currentInstance_after_beforeMount.
  - simpl. apply lookup_insert_eq.
  - done.
  - change (registered (with_first_effect f w) ?i ?n)
      with (registered (after_beforeMount f w) i n).
    rewrite registered_after_beforeMount. by apply all_calm_hooked.
  - change (registered (with_first_effect f w) ?i ?n)
      with (registered (after_beforeMount f w) i n).
    rewrite registered_after_beforeMount. by apply all_calm_hooked.
Qed.

Section Born.
Variables (f : Factory) (w : World).

Lemma currentInstance_with_first_effect : currentInstance (with_first_effect f w) = None.
Proof. apply currentInstance_after_beforeMount. Qed.

Lemma instances_born : instances (born f w) = instances (after_setup f w).
Proof.
  unfold born. rewrite instances_ran by apply currentInstance_with_first_effect.
  apply instances_after_beforeMount.
Qed.

Lemma registered_born name :
  registered (born f w) (length (instances w)) name = hooked name (path ∅ (setup f)).
Proof. unfold registered, field. rewrite instances_born. apply registered_after_setup. Qed.

Lemma field_born_other j name :
  j ≠ length (instances w) → field (born f w) j name = field w j name.
Proof.
  intros Hne. unfold field at 1. rewrite instances_born.
  change (field (replays (length (instances w)) (path ∅ (setup f)) (entered w)) j name
          = field w j name).
  rewrite field_replays_other by (simpl; intros [= Hj]; by apply Hne).
  unfold field, entered. simpl.
  destruct (decide (j < length (instances w))) as [Hlt|Hge].
  - by rewrite lookup_app_l.
  - rewrite !lookup_ge_None_2; [done|lia|]. rewrite length_app. simpl. lia.
Qed.

Lemma length_instances_born : length (instances (born f w)) = S (length (instances w)).
Proof.
  rewrite instances_born. unfold after_setup. cbn [instances with_currentInstance].
  rewrite length_instances_replays. unfold entered. simpl.
  rewrite length_app. simpl. lia.
Qed.

Lemma props_of_born j : props_of (born f w) j = props_of w j.
Proof.
  unfold born. rewrite props_of_ran.
  change (props_of (with_first_effect f w) j) with (props_of (after_beforeMount f w) j).
  unfold after_beforeMount. rewrite props_of_fired.
  change (props_of (after_setup f w) j)
    with (props_of (replays (length (instances w)) (path ∅ (setup f)) (entered w)) j).
  rewrite props_of_replays. unfold props_of, entered. simpl.
  destruct (decide (j < length (instances w))) as [Hlt|Hge].
  - by rewrite lookup_app_l.
  - rewrite (lookup_ge_None_2 (instances w)) by lia.
    destruct (decide (j = length (instances w))) as [->|Hne].
    + rewrite lookup_app_r by done. by rewrite Nat.sub_diag.
    + rewrite lookup_ge_None_2; [done|]. rewrite length_app. simpl. lia.
Qed.

Lemma currentInstance_born : currentInstance (born f w) = None.
Proof. unfold born. rewrite currentInstance_ran. apply currentInstance_with_first_effect. Qed.

Lemma effects_born :
  effects (born f w) =
    <[length (instances w) := {| template := render f; isMounted := true; runs := 1 |}]>
      (effects w).
Proof.
  unfold born. rewrite (effects_ran _ (first_effect f)).
  - unfold with_first_effect, after_beforeMount, after_setup.
    cbn [effects with_effects]. rewrite effects_fired.
    cbn [effects with_currentInstance]. rewrite effects_replays.
    unfold entered. simpl. by rewrite insert_insert_eq.
  - unfold with_first_effect. simpl. apply lookup_insert_eq.
Qed.

Lemma trace_born :
  trace (born f w) = trace w
    ++ map (Invoke (length (instances w)) "_bm") (hooked "_bm" (path ∅ (setup f)))
    ++ map (Invoke (length (instances w)) "_bu") (hooked "_bu" (path ∅ (setup f)))
    ++ [Rendered (length (instances w))].
Proof.
  unfold born. rewrite trace_ran. cbn [isMounted first_effect].
  change (registered (with_first_effect f w) ?i ?n)
    with (registered (after_beforeMount f w) i n).
  rewrite registered_after_beforeMount.
  unfold with_first_effect, after_beforeMount. cbn [trace with_effects].
  rewrite trace_fired, registered_after_setup.
  unfold after_setup. cbn [trace with_currentInstance]. rewrite trace_replays.
  unfold entered. simpl. by rewrite <- app_assoc.
Qed.

Lemma NoDups_born : NoDups w → NoDups (born f w).
Proof.
  intros HN o key. unfold born. apply NoDup_dependents_ran.
  change (dependents (with_first_effect f w) o key)
    with (dependents (after_beforeMount f w) o key).
  unfold after_beforeMount. apply NoDup_dependents_fired.
  change (dependents (after_setup f w) o key)
    with (dependents (replays (length (instances w)) (path ∅ (setup f)) (entered w)) o key).
  apply NoDup_dependents_replays. apply HN.
Qed.

Lemma Calm_born :
  calm (setup f) = true → calm (render f) = true → Calm w → Calm (born f w).
Proof.
  intros Hs Hr [Hcb Htm]. split.
  - intros i name. destruct (decide (i = length (instances w))) as [->|Hne].
    + rewrite registered_born. by apply all_calm_hooked.
    + unfold registered. rewrite field_born_other by done. apply Hcb.
  - intros e c. rewrite effects_born.
    destruct (decide (length (instances w) = e)) as [<-|Hne].
    + rewrite lookup_insert_eq. by intros [= <-].
    + rewrite lookup_insert_ne by done. apply Htm.
Qed.
End Born.

Lemma ensures_bind (P : World → Prop) o f :
  ensures P o → (∀ w, P w → ensures P (f w)) → ensures P (o >>= f).
Proof. destruct o; simpl; auto. Qed.

Section Invariant.
(** A property of worlds that every primitive step keeps. *)
Variable I : World → Prop.
Hypothesis I_export : ∀ m cb w, I w → I (export m cb w).
Hypothesis I_track : ∀ o key w, I w → I (track o key w).
Hypothesis I_store : ∀ o key v w, I w → I (store o key v w).
Hypothesis I_log : ∀ ev w, I w → I (log ev w).
Hypothesis I_cleanup : ∀ e w, I w → I (cleanup e w).
Hypothesis I_count_run : ∀ e w, I w → I (count_run e w).
Hypothesis I_set_mounted : ∀ e w, I w → I (set_mounted e w).
Hypothesis I_activeEffect : ∀ a w, I w → I (with_activeEffect a w).

Lemma forEach_inv {A} (f : A → World → outcome) (l : list A) :
  (∀ x w, I w → ensures I (f x w)) → ∀ w, I w → ensures I (forEach f l w).
Proof.
  intros Hf. induction l as [|x l IH]; intros w Hw; [done|].
  simpl. apply ensures_bind; auto.
Qed.

Section Rerun.
Variable rerun : nat → World → outcome.
Hypothesis rerun_inv : ∀ e w, I w → ensures I (rerun e w).

Lemma reactive_set_inv o key v w : I w → ensures I (reactive_set rerun o key v w).
Proof. intros Hw. apply forEach_inv; auto. Qed.

Lemma exec_inv self s : ∀ w, I w → ensures I (exec rerun self s w).
Proof.
  induction s as [| |m cb _ k IH|key k IH|key v k IH|key yes IHy no IHn];
    intros w Hw; simpl; auto.
  - apply ensures_bind; [by apply reactive_set_inv|done].
  - destruct (ToBoolean _); auto.
Qed.

Lemma fire_inv this name w : I w → ensures I (fire rerun this name w).
Proof.
  intros Hw. unfold fire. destruct (field w this name); [|done].
  apply forEach_inv; [|done]. intros cb w' Hw'. apply exec_inv. auto.
Qed.

Lemma effect_fn_inv this w : I w → ensures I (effect_fn rerun this w).
Proof.
  intros Hw. unfold effect_fn. destruct (effects w !! this); [|done].
  apply ensures_bind; [|intros w1 Hw1; apply ensures_bind].
  - destruct (negb _); [by apply fire_inv|done].
  - by apply exec_inv.
  - intros w2 Hw2. cbv zeta. destruct (mounted _ _).
    + apply fire_inv. auto.
    + simpl. auto.
Qed.
End Rerun.

Lemma run_inv fuel : ∀ e w, I w → ensures I (run fuel e w).
Proof.
  induction fuel as [|n IH]; intros e w Hw; [done|].
  simpl. destruct (effects w !! e); [|done].
  apply ensures_bind.
  - apply effect_fn_inv; auto.
  - intros w' Hw'. simpl. auto.
Qed.
End Invariant.

(** User code never changes which instance is current. *)
Lemma currentInstance_export m cb w : currentInstance (export m cb w) = currentInstance w.
Proof.
  rewrite export_unfold. unfold createLifecycleMethod. by destruct (currentInstance w) eqn:E.
Qed.

Lemma currentInstance_track o key w : currentInstance (track o key w) = currentInstance w.
Proof. unfold track. destruct (activeEffect w); [|done]. by case_decide. Qed.

Lemma run_current_is c fuel e w :
  current_is c w → ensures (current_is c) (run fuel e w).
Proof.
  apply run_inv; unfold current_is; intros; try done.
  - by rewrite currentInstance_export.
  - by rewrite currentInstance_track.
Qed.

Lemma exec_current_is c fuel self s w :
  current_is c w → ensures (current_is c) (exec (run fuel) self s w).
Proof.
  apply exec_inv; unfold current_is; intros; try done.
  - by rewrite currentInstance_export.
  - by rewrite currentInstance_track.
  - by apply run_current_is.
Qed.

Lemma idle_since_refl w : currentInstance w = None → idle_since w w.
Proof. by split. Qed.

Section Idle.
Variable w0 : World.

Lemma idle_export m cb w : idle_since w0 w → idle_since w0 (export m cb w).
Proof.
  intros [Hc Hf]. rewrite export_unfold. by rewrite createLifecycleMethod_idle.
Qed.

Lemma idle_track o key w : idle_since w0 w → idle_since w0 (track o key w).
Proof.
  intros [Hc Hf]. split; [by rewrite currentInstance_track|].
  intros. by rewrite field_track.
Qed.

Lemma idle_store o key v w : idle_since w0 w → idle_since w0 (store o key v w).
Proof. intros [Hc Hf]. split; [done|]. intros. by rewrite field_store. Qed.

Lemma run_idle fuel e w : idle_since w0 w → ensures (idle_since w0) (run fuel e w).
Proof.
  apply run_inv; try done.
  - apply idle_export.
  - apply idle_track.
  - apply idle_store.
Qed.

Lemma fire_idle fuel this name w :
  idle_since w0 w → ensures (idle_since w0) (fire (run fuel) this name w).
Proof.
  apply fire_inv; try done.
  - apply idle_export.
  - apply idle_track.
  - apply idle_store.
  - intros. by apply run_idle.
Qed.

Lemma exec_idle fuel self s w :
  idle_since w0 w → ensures (idle_since w0) (exec (run fuel) self s w).
Proof.
  apply exec_inv; try done.
  - apply idle_export.
  - apply idle_track.
  - apply idle_store.
  - intros. by apply run_idle.
Qed.

Lemma reactive_set_idle fuel o key v w :
  idle_since w0 w → ensures (idle_since w0) (reactive_set (run fuel) o key v w).
Proof.
  apply reactive_set_inv.
  - apply idle_store.
  - intros. by apply run_idle.
Qed.
End Idle.

Lemma aimed_since_refl w : aimed_since w w.
Proof. by split. Qed.

Section Aimed.
Variable w0 : World.

Lemma aimed_export m cb w : aimed_since w0 w → aimed_since w0 (export m cb w).
Proof.
  intros [Hc Hf]. split; [by rewrite currentInstance_export|].
  intros i name Hi. rewrite field_export_other; [by apply Hf|]. by rewrite Hc.
Qed.

Lemma aimed_track o key w : aimed_since w0 w → aimed_since w0 (track o key w).
Proof.
  intros [Hc Hf]. split; [by rewrite currentInstance_track|].
  intros. rewrite field_track. by apply Hf.
Qed.

Lemma aimed_store o key v w : aimed_since w0 w → aimed_since w0 (store o key v w).
Proof. intros [Hc Hf]. split; [done|]. intros. rewrite field_store. by apply Hf. Qed.

Lemma run_aimed fuel e w : aimed_since w0 w → ensures (aimed_since w0) (run fuel e w).
Proof.
  apply run_inv; try done.
  - apply aimed_export.
  - apply aimed_track.
  - apply aimed_store.
Qed.

Lemma reactive_set_aimed fuel o key v w :
  aimed_since w0 w → ensures (aimed_since w0) (reactive_set (run fuel) o key v w).
Proof.
  apply reactive_set_inv.
  - apply aimed_store.
  - intros. by apply run_aimed.
Qed.
End Aimed.

(** ** Reachable worlds are ready *)

Lemma Calm_calm_world w : Calm w → calm_world w = true.
Proof.
  intros [Hcb Htm]. unfold calm_world. apply andb_true_intro. split.
  - apply forallb_forall. intros inst Hin.
    apply list_elem_of_In, list_elem_of_lookup in Hin as [i Hi].
    unfold calm_instance. apply forallb_forall. intros [name l] Hl.
    apply list_elem_of_In, elem_of_map_to_list in Hl. simpl.
    specialize (Hcb i name). unfold registered, field in Hcb.
    rewrite Hi in Hcb. simpl in Hcb. by rewrite Hl in Hcb.
  - apply forallb_forall. intros [e c] Hc.
    apply list_elem_of_In, elem_of_map_to_list in Hc. simpl. by eapply Htm.
Qed.

Lemma NoDups_tracker_nodup w : NoDups w → tracker_nodup w = true.
Proof.
  intros HN. unfold tracker_nodup. apply forallb_forall. intros [[o key] l] Hl.
  apply list_elem_of_In, elem_of_map_to_list in Hl. simpl.
  apply bool_decide_eq_true_2. specialize (HN o key).
  unfold dependents in HN. by rewrite Hl in HN.
Qed.

Lemma ready_boot : ready boot.
Proof.
  split_and!; try done.
  intros o key. apply NoDup_nil_2.
Qed.

Lemma ready_fired i name cbs w : ready w → ready (fired i name cbs w).
Proof.
  intros ([Hcb Htm] & HN & Hcur & Hm). split_and!.
  - split.
    + intros j n. unfold registered, field. rewrite instances_fired_idle by done. apply Hcb.
    + intros e c. rewrite effects_fired. apply Htm.
  - intros o key. apply NoDup_dependents_fired, HN.
  - by rewrite currentInstance_fired.
  - intros e c. rewrite effects_fired. apply Hm.
Qed.

Lemma ready_fire rerun i name w w' :
  ready w → fire rerun i name w = Normal w' → ready w'.
Proof.
  intros Hr Hf. rewrite fire_calm in Hf by apply Hr.
  injection Hf as <-. by apply ready_fired.
Qed.

Lemma transition_ready w w' : ready w → transition w w' → ready w'.
Proof.
  intros Hr Ht. destruct Ht as
    [name propDefs third w w' Hd|n cls f w w' Hf Hs Hrd Hc|n this w w' Hc
    |n this w w' Hc|n this name oldValue newValue w w' Hc|m cb w].
  - unfold defineComponent, customElements_define in Hd.
    destruct (customElements w !! name); [done|]. by injection Hd as <-.
  - rewrite (constructor_calm n cls f w Hf Hs Hrd) in Hc. injection Hc as <-.
    destruct Hr as (HC & HN & Hcur & Hm). split_and!.
    + by apply Calm_born.
    + by apply NoDups_born.
    + apply currentInstance_born.
    + intros e c. rewrite effects_born.
      destruct (decide (length (instances w) = e)) as [<-|Hne].
      * rewrite lookup_insert_eq. by intros [= <-].
      * rewrite lookup_insert_ne by done. apply Hm.
  - by eapply ready_fire.
  - by eapply ready_fire.
  - destruct Hr as (HC & HN & Hcur & Hm).
    unfold attributeChangedCallback in Hc. rewrite write_calm in Hc by done.
    injection Hc as <-.
    pose proof (write_reran this name newValue w HC HN Hcur) as Hre.
    split_and!.
    + apply (reran_Calm _ _ _ Hre).
    + by apply (reran_NoDups _ _ _ Hre).
    + apply (reran_currentInstance _ _ _ Hre).
    + intros e c. rewrite (reran_effects _ _ _ Hre). simpl.
      case_decide; [|apply Hm].
      destruct (effects w !! e) as [c0|]; [|done]. simpl. by intros [= <-].
  - destruct Hr as (HC & HN & Hcur & Hm).
    by rewrite export_unfold, createLifecycleMethod_idle.
Qed.

(** Every world reached from [boot] meets the conditions under which the
    properties below are stated. *)
Lemma reachable_ready w :
  reachable w →
  calm_world w = true ∧ tracker_nodup w = true ∧ currentInstance w = None
  ∧ ∀ e, is_Some (effects w !! e) → mounted w e = true.
Proof.
  intros Hr.
  assert (ready w) as (HC & HN & Hcur & Hm).
  { induction Hr as [|w w' _ IH Ht]; [apply ready_boot|by eapply transition_ready]. }
  split_and!; [by apply Calm_calm_world|by apply NoDups_tracker_nodup|done|].
  intros e [c Hc]. unfold mounted. rewrite Hc. simpl. by eapply Hm.
Qed.

(** ** Calm code completes, whichever instance is current *)



Lemma Calm_same w w' :
  instances w' = instances w → effects w' = effects w → Calm w → Calm w'.
Proof.
  intros Hi He [Hreg Htm]. split.
  - intros j n. unfold registered, field. rewrite Hi. apply Hreg.
  - intros e c. rewrite He. apply Htm.
Qed.



Section CalmSince.
Variable w0 : World.
Variable rerun : nat → World → outcome.





End CalmSince.



(** ** Facts used by the claims *)

Lemma currentInstance_exports m cbs : ∀ w,
  currentInstance (foldl (λ w cb, export m cb w) w cbs) = currentInstance w.
Proof.
  induction cbs as [|cb cbs IH]; intros w; [done|].
  simpl. by rewrite IH, currentInstance_export.
Qed.

Lemma registered_exports m cbs : ∀ w i,
  currentInstance w = Some i → i < length (instances w) →
  registered (foldl (λ w cb, export m cb w) w cbs) i (field_name m)
    = registered w i (field_name m) ++ cbs.
Proof.
  induction cbs as [|cb cbs IH]; intros w i Hc Hlt.
  - simpl. by rewrite app_nil_r.
  - simpl. rewrite IH.
    + rewrite registered_export by done. rewrite decide_True by done.
      by rewrite <- app_assoc.
    + by rewrite currentInstance_export.
    + rewrite export_unfold, length_createLifecycleMethod. done.
Qed.

Lemma invoked_app i name tr1 tr2 :
  invoked i name (tr1 ++ tr2) = invoked i name tr1 ++ invoked i name tr2.
Proof. apply omap_app. Qed.

Lemma invoked_map_Invoke i name e n l :
  invoked i name (map (Invoke e n) l) = if decide (e = i ∧ n = name) then l else [].
Proof.
  induction l as [|cb l IH]; [by case_decide|].
  unfold invoked, omap in *. simpl. rewrite IH. by case_decide.
Qed.

Lemma invoked_run_events_absent i name w e :
  registered w i name = [] → invoked i name (run_events w e) = [].
Proof.
  intros Hreg. unfold run_events. destruct (effects w !! e) as [c|]; [|done].
  destruct (isMounted c).
  - change (Rendered e :: ?l) with ([Rendered e] ++ l).
    rewrite invoked_app, invoked_map_Invoke. simpl.
    case_decide as H; [|done]. destruct H as [-> <-]. done.
  - rewrite invoked_app, invoked_map_Invoke. simpl. rewrite app_nil_r.
    case_decide as H; [|done]. destruct H as [-> <-]. done.
Qed.

Lemma invoked_flat_map_absent i name w l :
  registered w i name = [] → invoked i name (flat_map (run_events w) l) = [].
Proof.
  intros Hreg. induction l as [|e l IH]; [done|].
  simpl. by rewrite invoked_app, IH, invoked_run_events_absent.
Qed.

Lemma events_of_app i tr1 tr2 :
  events_of i (tr1 ++ tr2) = events_of i tr1 ++ events_of i tr2.
Proof. apply filter_app. Qed.

Lemma events_of_map_Invoke i e n l :
  events_of i (map (Invoke e n) l) = if decide (e = i) then map (Invoke e n) l else [].
Proof.
  induction l as [|cb l IH]; [by case_decide|].
  unfold events_of in *. simpl. rewrite filter_cons. simpl. rewrite IH.
  by repeat case_decide.
Qed.

Lemma events_of_run_events i w e :
  events_of i (run_events w e) = if decide (e = i) then run_events w e else [].
Proof.
  unfold run_events. destruct (effects w !! e) as [c|]; [|by case_decide].
  destruct (isMounted c).
  - change (Rendered e :: ?l) with ([Rendered e] ++ l).
    rewrite events_of_app, events_of_map_Invoke.
    unfold events_of. rewrite filter_cons. simpl. by repeat case_decide.
  - rewrite events_of_app, events_of_map_Invoke.
    unfold events_of. rewrite filter_cons. simpl. by repeat case_decide.
Qed.

Lemma events_of_flat_map i w l :
  NoDup l →
  events_of i (flat_map (run_events w) l) = if decide (i ∈ l) then run_events w i else [].
Proof.
  induction l as [|e l IH]; intros Hnd; [done|].
  apply NoDup_cons in Hnd as [Hnin Hnd]. simpl.
  rewrite events_of_app, events_of_run_events, (IH Hnd).
  destruct (decide (e = i)) as [->|Hne];
    destruct (decide (i ∈ l)) as [Hin|Hin];
    destruct (decide (i ∈ _ :: l)) as [Hin'|Hin'];
    rewrite ?app_nil_r; try done.
  - exfalso. apply Hin', list_elem_of_here.
  - exfalso. by apply Hin', list_elem_of_further.
  - exfalso. apply elem_of_cons in Hin' as [?|?]; congruence.
Qed.

Lemma field_replays_absent self name l : ∀ w i,
  currentInstance w = Some i → field w i name = None → hooked name l = [] →
  field (replays self l w) i name = None.
Proof.
  induction l as [|a l IH]; intros w i Hc Hf Hh; [done|].
  rewrite replays_cons. destruct a as [key|m cb]; cbn [replay].
  - apply IH; [by rewrite currentInstance_track|by rewrite field_track|done].
  - unfold hooked in Hh. simpl in Hh. case_decide as Hn; [done|].
    apply IH; [by rewrite currentInstance_export| |done].
    rewrite export_unfold, field_createLifecycleMethod_ne; [done|by right].
Qed.

Lemma field_entered w name : field (entered w) (length (instances w)) name = None.
Proof.
  unfold field, entered. simpl. rewrite lookup_app_r by done. by rewrite Nat.sub_diag.
Qed.

Lemma field_born_absent f w name :
  hooked name (path ∅ (setup f)) = [] → field (born f w) (length (instances w)) name = None.
Proof.
  intros Hh. unfold field. rewrite instances_born.
  change (field (replays (length (instances w)) (path ∅ (setup f)) (entered w))
                (length (instances w)) name = None).
  apply field_replays_absent; [done|apply field_entered|done].
Qed.

Lemma registered_absent w i name : field w i name = None → registered w i name = [].
Proof. unfold registered. by intros ->. Qed.

Lemma runs_of_reran l w0 w' C :
  reran l w0 w' →
  runs_of w' C = if decide (C ∈ l ∧ is_Some (effects w0 !! C))
                 then S (runs_of w0 C) else runs_of w0 C.
Proof.
  intros Hre. unfold runs_of. rewrite (reran_effects _ _ _ Hre).
  destruct (decide (C ∈ l)) as [Hin|Hin].
  - destruct (effects w0 !! C) as [c|] eqn:He; simpl.
    + by rewrite decide_True.
    + rewrite decide_False; [done|]. intros [_ [? ?]]. done.
  - rewrite decide_False; [done|]. by intros [? _].
Qed.

Lemma runs_of_store o key v w C : runs_of (store o key v w) C = runs_of w C.
Proof. done. Qed.

Lemma reads_switch ps flag a b :
  reads ps (switch flag a b)
  = [flag; if ToBoolean (member flag ps) then a else b].
Proof. unfold reads, switch. simpl. by destruct (ToBoolean _). Qed.

Lemma invoked_run_events_other i name w e :
  e ≠ i → invoked i name (run_events w e) = [].
Proof.
  intros Hne. unfold run_events. destruct (effects w !! e) as [c|]; [|done].
  destruct (isMounted c).
  - change (Rendered e :: ?l) with ([Rendered e] ++ l).
    rewrite invoked_app, invoked_map_Invoke. simpl.
    case_decide as H; [|done]. by destruct H.
  - rewrite invoked_app, invoked_map_Invoke. simpl. rewrite app_nil_r.
    case_decide as H; [|done]. by destruct H.
Qed.

Lemma invoked_flat_map_nil i name w l :
  (∀ e, e ∈ l → invoked i name (run_events w e) = []) →
  invoked i name (flat_map (run_events w) l) = [].
Proof.
  induction l as [|e l IH]; intros H; [done|].
  simpl. rewrite invoked_app, H by apply list_elem_of_here.
  apply IH. intros x Hx. by apply H, list_elem_of_further.
Qed.

Lemma mounted_run_events w e :
  mounted w e = true →
  run_events w e = Rendered e :: map (Invoke e "_u") (registered w e "_u").
Proof.
  unfold mounted, run_events. destruct (effects w !! e) as [c|]; simpl; [|done].
  by intros ->.
Qed.

(** * Examples

    The model run on small components. *)

Example late_hooks_register_nothing :
  ∃ w', constructor 1 {| observedAttributes := ["count"]; factory := Some late_hooks |} boot
          = Normal w'
    ∧ registered w' 0 "_bm" = [Hook OnMounted Return Return]
    ∧ registered w' 0 "_m" = []
    ∧ registered w' 0 "_u" = []
    ∧ ∃ w'', attributeChangedCallback 1 0 "count" VNull (VString "1") w' = Normal w''
        ∧ registered w'' 0 "_u" = [].
Proof.
  eexists. split_and!; [vm_compute; reflexivity..|].
  eexists. split; vm_compute; reflexivity.
Qed.

Example counter_constructed :
  constructor 1 counter_class boot = Normal counter_world
  ∧ trace counter_world = [Invoke 0 "_bm" Return; Invoke 0 "_bu" Return; Rendered 0]
  ∧ dependents counter_world 0 "count" = [0]
  ∧ own (props_of counter_world 0) !! "count" = None.
Proof. split_and!; vm_compute; reflexivity. Qed.

Example counter_attribute_changed :
  ∃ w', attributeChangedCallback 1 0 "count" VNull (VString "1") counter_world = Normal w'
    ∧ trace w' = [Invoke 0 "_bm" Return; Invoke 0 "_bu" Return; Rendered 0;
                  Rendered 0; Invoke 0 "_u" (Hook OnMounted Return Return)]
    ∧ own (props_of w' 0) !! "count" = Some (VString "1")
    ∧ runs_of w' 0 = 2
    ∧ registered w' 0 "_m" = [].
Proof. eexists. split_and!; vm_compute; reflexivity. Qed.

Example unobserved_key_triggers_nothing :
  ∃ w', attributeChangedCallback 1 0 "title" VNull (VString "x") counter_world = Normal w'
    ∧ trace w' = trace counter_world
    ∧ runs_of w' 0 = 1.
Proof. eexists. split_and!; vm_compute; reflexivity. Qed.

Example toggle_follows_flag :
  dependents toggle_world 0 "b" = [0] ∧ dependents toggle_world 0 "a" = []
  ∧ ∃ w1, attributeChangedCallback 1 0 "flag" VNull (VString "on") toggle_world = Normal w1
      ∧ dependents w1 0 "a" = [0] ∧ dependents w1 0 "b" = []
      ∧ runs_of w1 0 = 2
      ∧ (∃ w2, attributeChangedCallback 1 0 "b" VNull (VString "x") w1 = Normal w2
           ∧ runs_of w2 0 = 2)
      ∧ (∃ w2, attributeChangedCallback 1 0 "a" VNull (VString "x") w1 = Normal w2
           ∧ runs_of w2 0 = 3).
Proof.
  split_and!; [vm_compute; reflexivity..|].
  eexists. split_and!; [vm_compute; reflexivity..| |];
    eexists; split; vm_compute; reflexivity.
Qed.

Example self_writer_recurses :
  (∃ w, constructor 1 self_writer boot = Exhausted w)
  ∧ (∃ w, constructor 5 self_writer boot = Exhausted w)
  ∧ (∃ w, constructor 50 self_writer boot = Exhausted w).
Proof. split_and!; eexists; vm_compute; reflexivity. Qed.

Example stale_pointer_after_throw :
  ∃ w', constructor 1 thrower boot = Raised w'
    ∧ registered (onMounted Return w') 0 "_m" = [Return].
Proof. eexists. split; vm_compute; reflexivity. Qed.

Example duplicate_definition_rejected :
  ∃ w', defineComponent "my-counter" (IsArray ["count"]) (Some counter) boot = Normal w'
    ∧ defineComponent "my-counter" (IsFunction counter) None w' = Raised w'.
Proof. eexists. split; vm_compute; reflexivity. Qed.

Example inherited_key_selects_branch :
  reads ∅ (switch "flag" "a" "b") = ["flag"; "b"]
  ∧ reads ∅ (switch "constructor" "a" "b") = ["constructor"; "a"]
  ∧ reads (assign "constructor" (VString EmptyString) ∅) (switch "constructor" "a" "b")
    = ["constructor"; "b"]
  ∧ reads (assign "__proto__" (VString "x") ∅) (switch "__proto__" "a" "b")
    = ["__proto__"; "a"]
  ∧ reads (assign "__proto__" VNull ∅) (switch "constructor" "a" "b")
    = ["constructor"; "b"]
  ∧ member "__proto__" (assign "__proto__" (VString "x") (assign "__proto__" VNull ∅))
    = Value (VString "x").
Proof. split_and!; vm_compute; reflexivity. Qed.

Example inherited_key_at_first_render :
  ∃ w', constructor 1 {| observedAttributes := ["toString"];
                         factory := Some {| setup := Return;
                                            render := switch "toString" "a" "b" |} |} boot
          = Normal w'
    ∧ dependents w' 0 "a" = [0] ∧ dependents w' 0 "b" = []
    ∧ ∃ w'', attributeChangedCallback 1 0 "toString" VNull (VString EmptyString) w'
               = Normal w''
        ∧ peek 0 "toString" w'' = Value (VString EmptyString)
        ∧ dependents w'' 0 "a" = [] ∧ dependents w'' 0 "b" = [0].
Proof.
  eexists. split_and!; [vm_compute; reflexivity..|].
  eexists. split_and!; vm_compute; reflexivity.
Qed.

(** * The claims *)

(** C1, as stated, fails: after the construction of a component whose
    factory throws, the pointer still refers to the instance whose
    construction failed. *)
Lemma throwing_factory_leaves_pointer_set :
  constructor 1 thrower boot = Raised (entered boot)
  ∧ currentInstance (entered boot) = Some 0
  ∧ currentInstance (entered boot) ≠ None.
Proof. split_and!; [reflexivity|reflexivity|discriminate]. Qed.

(** C1, amended: when the factory returns normally, the pointer is cleared
    right after the call and is empty for the rest of the construction,
    however it ends; when the factory throws, the construction fails with the
    pointer still set to the failed instance; and a construction does not
    depend on the pointer it finds, since it sets the pointer to its own
    instance before it calls the factory. *)
Theorem pointer_cleared_after_normal_factory
    (fuel : nat) (cls : ElementClass) (f : Factory) (w : World) :
  factory cls = Some f →
  (∀ w1, exec (run fuel) (length (instances w)) (setup f) (entered w) = Normal w1 →
         ensures (λ w', currentInstance w' = None) (constructor fuel cls w))
  ∧ (∀ w1, exec (run fuel) (length (instances w)) (setup f) (entered w) = Raised w1 →
           constructor fuel cls w = Raised w1
           ∧ currentInstance w1 = Some (length (instances w)))
  ∧ (∀ stale, constructor fuel cls (with_currentInstance stale w) = constructor fuel cls w).
Proof.
  intros Hf. split_and!.
  - intros w1 Hs. unfold constructor. rewrite Hf. fold (entered w). rewrite Hs.
    cbn [bind]. apply (ensures_bind (current_is None)).
    + apply fire_inv; unfold current_is; intros; try done.
      * by rewrite currentInstance_export.
      * by rewrite currentInstance_track.
      * by apply run_current_is.
    + intros w2 Hw2. unfold effect. by apply run_current_is.
  - intros w1 Hs. unfold constructor. rewrite Hf. fold (entered w). rewrite Hs.
    split; [done|].
    pose proof (exec_current_is (Some (length (instances w))) fuel
                  (length (instances w)) (setup f) (entered w) eq_refl) as H.
    by rewrite Hs in H.
  - intros stale. done.
Qed.

Lemma pointer_cleared_after_normal_factory_witness :
  (∀ w1, exec (run 1) 0 Return (entered boot) = Normal w1 →
         ensures (λ w', currentInstance w' = None)
           (constructor 1 {| observedAttributes := [];
                             factory := Some {| setup := Return; render := Return |} |} boot))
  ∧ (∀ w1, exec (run 1) 0 Return (entered boot) = Raised w1 →
           constructor 1 {| observedAttributes := [];
                            factory := Some {| setup := Return; render := Return |} |} boot
             = Raised w1
           ∧ currentInstance w1 = Some 0)
  ∧ (∀ stale,
       constructor 1 {| observedAttributes := [];
                        factory := Some {| setup := Return; render := Return |} |}
         (with_currentInstance stale boot)
       = constructor 1 {| observedAttributes := [];
                          factory := Some {| setup := Return; render := Return |} |} boot).
Proof.
  apply (pointer_cleared_after_normal_factory 1
           {| observedAttributes := [];
              factory := Some {| setup := Return; render := Return |} |}
           {| setup := Return; render := Return |} boot).
  reflexivity.
Defined.

(** C2: the firing order.  Construction fires the beforeMount callbacks,
    then, inside the first run of the render computation, the beforeUpdate
    callbacks and then the render; no updated callback fires in it.  From then
    on the computation counts as mounted, and a write that reruns it produces,
    for the instance, the render followed by the updated callbacks and nothing
    else; no beforeUpdate callback fires again, and the computation stays
    mounted, so the same holds for every later write.  The user code is taken
    to be calm. *)
Theorem lifecycle_firing_order :
  (∀ n cls f w,
     factory cls = Some f → calm (setup f) = true → calm (render f) = true →
     ∃ w', constructor (S n) cls w = Normal w'
       ∧ trace w' = trace w
           ++ map (Invoke (length (instances w)) "_bm")
                  (registered w' (length (instances w)) "_bm")
           ++ map (Invoke (length (instances w)) "_bu")
                  (registered w' (length (instances w)) "_bu")
           ++ [Rendered (length (instances w))]
       ∧ (∀ name, registered w' (length (instances w)) name
                  = hooked name (path ∅ (setup f)))
       ∧ invoked (length (instances w)) "_u" (trace w')
           = invoked (length (instances w)) "_u" (trace w)
       ∧ mounted w' (length (instances w)) = true
       ∧ runs_of w' (length (instances w)) = 1
       ∧ currentInstance w' = None)
  ∧ (∀ n this o key oldValue newValue w,
       calm_world w = true → tracker_nodup w = true → currentInstance w = None →
       mounted w this = true →
       ∃ w' delta,
         attributeChangedCallback (S n) o key oldValue newValue w = Normal w'
         ∧ trace w' = trace w ++ delta
         ∧ events_of this delta
             = (if decide (this ∈ dependents w o key)
                then Rendered this :: map (Invoke this "_u") (registered w this "_u")
                else [])
         ∧ invoked this "_bu" delta = []
         ∧ mounted w' this = true
         ∧ (∀ name, registered w' this name = registered w this name)).
Proof.
  split.
  - intros n cls f w Hf Hs Hr. exists (born f w). split_and!.
    + by apply constructor_calm.
    + rewrite trace_born, !registered_born. done.
    + intros name. apply registered_born.
    + rewrite trace_born, !invoked_app, !invoked_map_Invoke. simpl.
      repeat case_decide; destruct_and?; simplify_eq. by rewrite app_nil_r.
    + unfold mounted. rewrite effects_born, lookup_insert_eq. done.
    + unfold runs_of. rewrite effects_born, lookup_insert_eq. done.
    + apply currentInstance_born.
  - intros n this o key oldValue newValue w
      HC%calm_world_Calm HN%tracker_nodup_NoDups Hcur Hm.
    pose proof (write_reran o key newValue w HC HN Hcur) as Hre.
    eexists. exists (flat_map (run_events w) (dependents w o key)). split_and!.
    + unfold attributeChangedCallback. by apply write_calm.
    + rewrite (reran_trace _ _ _ Hre). simpl. f_equal.
      apply flat_map_ext. intros e. apply run_events_store.
    + rewrite events_of_flat_map by apply HN. case_decide; [|done].
      by apply mounted_run_events.
    + apply invoked_flat_map_nil. intros e _.
      destruct (decide (e = this)) as [->|Hne]; [|by apply invoked_run_events_other].
      rewrite mounted_run_events by done.
      change (Rendered this :: ?l) with ([Rendered this] ++ l).
      rewrite invoked_app, invoked_map_Invoke. simpl.
      case_decide as H; [|done]. by destruct H.
    + unfold mounted in *. rewrite (reran_effects _ _ _ Hre). simpl.
      destruct (effects w !! this) as [c|]; [|done]. simpl in *.
      by case_decide.
    + intros name. unfold registered, field. rewrite (reran_instances _ _ _ Hre).
      apply registered_store.
Qed.

Lemma lifecycle_firing_order_witness :
  (∃ w', constructor 1 counter_class boot = Normal w'
     ∧ trace w' = trace boot
         ++ map (Invoke (length (instances boot)) "_bm")
                (registered w' (length (instances boot)) "_bm")
         ++ map (Invoke (length (instances boot)) "_bu")
                (registered w' (length (instances boot)) "_bu")
         ++ [Rendered (length (instances boot))]
     ∧ (∀ name, registered w' (length (instances boot)) name
                = hooked name (path ∅ (setup counter)))
     ∧ invoked (length (instances boot)) "_u" (trace w')
         = invoked (length (instances boot)) "_u" (trace boot)
     ∧ mounted w' (length (instances boot)) = true
     ∧ runs_of w' (length (instances boot)) = 1
     ∧ currentInstance w' = None)
  ∧ (∃ w' delta,
       attributeChangedCallback 1 0 "count" VNull (VString "1") counter_world = Normal w'
       ∧ trace w' = trace counter_world ++ delta
       ∧ events_of 0 delta
           = (if decide (0 ∈ dependents counter_world 0 "count")
              then Rendered 0 :: map (Invoke 0 "_u") (registered counter_world 0 "_u")
              else [])
       ∧ invoked 0 "_bu" delta = []
       ∧ mounted w' 0 = true
       ∧ (∀ name, registered w' 0 name = registered counter_world 0 name)).
Proof.
  split.
  - apply (proj1 lifecycle_firing_order 0 counter_class counter boot); reflexivity.
  - apply (proj2 lifecycle_firing_order 0 0 0 "count" VNull (VString "1") counter_world);
      vm_compute; reflexivity.
Defined.




(** C4: dependencies are those of the latest run.  For a computation that
    reads [a] when [flag] is truthy and [b] otherwise, after [flag] is written
    and the computation has rerun, the computation depends on [flag] and on
    the key of the branch taken, and on nothing else; a write to the key of
    the branch not taken does not rerun it, and a write to the key of the
    branch taken reruns it exactly once.  The branch taken is the one that
    [flag] selects after the write: that of the value written, for every
    flag other than [__proto__]. *)
Theorem dependencies_follow_the_branch_taken
    (n C : nat) (c : Computation) (flag a b : string) (v : value) (w : World) :
  calm_world w = true → tracker_nodup w = true → currentInstance w = None →
  C < length (instances w) →
  effects w !! C = Some c → template c = switch flag a b → isMounted c = true →
  registered w C "_u" = [] →
  C ∈ dependents w C flag →
  a ≠ b → flag ≠ a → flag ≠ b →
  ∃ w1, reactive_set (run (S n)) C flag v w = Normal w1
    ∧ runs_of w1 C = S (runs_of w C)
    ∧ (flag ≠ "__proto__" → ToBoolean (peek C flag w1) = truthy v)
    ∧ (∀ o key, C ∈ dependents w1 o key ↔
                o = C ∧ key ∈ [flag; if ToBoolean (peek C flag w1) then a else b])
    ∧ (∀ x, ∃ w2,
         reactive_set (run (S n)) C (if ToBoolean (peek C flag w1) then b else a) x w1
           = Normal w2
         ∧ runs_of w2 C = runs_of w1 C)
    ∧ (∀ x, ∃ w2,
         reactive_set (run (S n)) C (if ToBoolean (peek C flag w1) then a else b) x w1
           = Normal w2
         ∧ runs_of w2 C = S (runs_of w1 C)).
Proof.
  intros HC%calm_world_Calm HN%tracker_nodup_NoDups Hcur Hlt He Ht Hm Hu Hin Hab Hfa Hfb.
  pose proof (write_reran C flag v w HC HN Hcur) as Hre.
  set (w1 := rerun_all (dependents w C flag) (store C flag v w)) in *.
  assert (props_of w1 C = assign flag v (props_of w C)) as Hps.
  { unfold w1. by rewrite props_of_rerun_all, props_of_store_eq. }
  set (t := ToBoolean (peek C flag w1)).
  assert (∀ o key, C ∈ dependents w1 o key ↔
            o = C ∧ key ∈ [flag; if t then a else b]) as Hdeps.
  { intros o key. rewrite (reran_dependents _ _ _ Hre).
    rewrite decide_True by (split; [done|by simpl; rewrite He]).
    unfold run_reads. simpl effects. rewrite He, Hm, Ht, registered_store, Hu.
    simpl flat_map. rewrite app_nil_r, reads_switch.
    rewrite props_of_store_eq by done. unfold t, peek. by rewrite Hps. }
  assert (effects w1 !! C = Some (after_run c)) as He1.
  { rewrite (reran_effects _ _ _ Hre). rewrite decide_True by done. simpl. by rewrite He. }
  pose proof (reran_Calm _ _ _ Hre) as HC1.
  pose proof (reran_NoDups _ _ _ Hre HN) as HN1.
  pose proof (reran_currentInstance _ _ _ Hre) as Hcur1.
  exists w1. fold t. split_and!.
  - by apply write_calm.
  - rewrite (runs_of_reran _ _ _ C Hre). rewrite decide_True; [done|].
    split; [done|]. simpl. by rewrite He.
  - intros Hne. unfold t, peek. rewrite Hps. by rewrite member_assign_eq.
  - exact Hdeps.
  - intros x. eexists. split; [by apply write_calm|].
    rewrite (runs_of_reran _ _ _ C (write_reran C _ x w1 HC1 HN1 Hcur1)).
    rewrite decide_False; [done|]. intros [Hd _]. apply Hdeps in Hd as [_ Hd].
    apply elem_of_cons in Hd as [Hd|Hd%list_elem_of_singleton];
      destruct t; congruence.
  - intros x. eexists. split; [by apply write_calm|].
    rewrite (runs_of_reran _ _ _ C (write_reran C _ x w1 HC1 HN1 Hcur1)).
    rewrite decide_True; [done|]. split.
    + apply Hdeps. split; [done|]. apply list_elem_of_further, list_elem_of_here.
    + simpl. by rewrite He1.
Qed.

Lemma dependencies_follow_the_branch_taken_witness :
  ∃ w1, reactive_set (run 1) 0 "flag" (VString "on") toggle_world = Normal w1
    ∧ runs_of w1 0 = S (runs_of toggle_world 0)
    ∧ ("flag" ≠ "__proto__" → ToBoolean (peek 0 "flag" w1) = truthy (VString "on"))
    ∧ (∀ o key, 0 ∈ dependents w1 o key ↔
                o = 0 ∧ key ∈ ["flag"; if ToBoolean (peek 0 "flag" w1) then "a" else "b"])
    ∧ (∀ x, ∃ w2,
         reactive_set (run 1) 0 (if ToBoolean (peek 0 "flag" w1) then "b" else "a") x w1
           = Normal w2
         ∧ runs_of w2 0 = runs_of w1 0)
    ∧ (∀ x, ∃ w2,
         reactive_set (run 1) 0 (if ToBoolean (peek 0 "flag" w1) then "a" else "b") x w1
           = Normal w2
         ∧ runs_of w2 0 = S (runs_of w1 0)).
Proof.
  apply (dependencies_follow_the_branch_taken 0 0
           {| template := switch "flag" "a" "b"; isMounted := true; runs := 1 |}
           "flag" "a" "b" (VString "on") toggle_world).
  - vm_compute. reflexivity.
  - vm_compute. reflexivity.
  - vm_compute. reflexivity.
  - vm_compute. lia.
  - vm_compute. reflexivity.
  - reflexivity.
  - reflexivity.
  - vm_compute. reflexivity.
  - vm_compute. apply list_elem_of_here.
  - discriminate.
  - discriminate.
  - discriminate.
Defined.

(** C5: calling any of the five registration functions while no instance is
    current returns normally and leaves the world as it was: no callback list
    of any instance changes, and a construction made afterwards proceeds as
    if the call had not happened. *)
Theorem registration_without_current_instance
    (m : lifecycle) (cb : script) (w : World) :
  currentInstance w = None →
  export m cb w = w
  ∧ (∀ rerun self, exec rerun self (Hook m cb Return) w = Normal w)
  ∧ (∀ rerun self k, exec rerun self (Hook m cb k) w = exec rerun self k w)
  ∧ (∀ i name, field (export m cb w) i name = field w i name)
  ∧ (∀ fuel cls, constructor fuel cls (export m cb w) = constructor fuel cls w).
Proof.
  intros Hc.
  assert (export m cb w = w) as He.
  { rewrite export_unfold. by apply createLifecycleMethod_idle. }
  split_and!; [done|..].
  - intros. simpl. by rewrite He.
  - intros. simpl. by rewrite He.
  - intros. by rewrite He.
  - intros. by rewrite He.
Qed.

Lemma registration_without_current_instance_witness :
  export OnMounted Return boot = boot
  ∧ (∀ rerun self, exec rerun self (Hook OnMounted Return Return) boot = Normal boot)
  ∧ (∀ rerun self k,
       exec rerun self (Hook OnMounted Return k) boot = exec rerun self k boot)
  ∧ (∀ i name, field (export OnMounted Return boot) i name = field boot i name)
  ∧ (∀ fuel cls,
       constructor fuel cls (export OnMounted Return boot) = constructor fuel cls boot).
Proof. apply (registration_without_current_instance OnMounted Return boot). reflexivity. Defined.




(** C7: a registration made while instance [i] is current appends the
    callback at the end of that instance's list for the named point and
    touches no other list; this holds for any number of registrations in a
    row; and when the point fires, the callbacks are invoked in insertion
    order (shown for callbacks that neither write props nor throw, so that
    every one of them runs and nothing else is interleaved). *)
Theorem registration_appends_in_order
    (m : lifecycle) (w : World) (i : nat) :
  currentInstance w = Some i → i < length (instances w) →
  (∀ cb,
     registered (export m cb w) i (field_name m) = registered w i (field_name m) ++ [cb]
     ∧ ∀ j name, (j, name) ≠ (i, field_name m) →
         field (export m cb w) j name = field w j name)
  ∧ (∀ cbs,
       registered (foldl (λ w cb, export m cb w) w cbs) i (field_name m)
         = registered w i (field_name m) ++ cbs)
  ∧ (∀ rerun cbs,
       all_calm (registered w i (field_name m) ++ cbs) = true →
       ∃ w', fire rerun i (field_name m) (foldl (λ w cb, export m cb w) w cbs) = Normal w'
             ∧ trace w' = trace w
                 ++ map (Invoke i (field_name m)) (registered w i (field_name m) ++ cbs)).
Proof.
  intros Hc Hlt. split_and!.
  - intros cb. split.
    + rewrite registered_export by done. by rewrite decide_True.
    + intros j name Hne. rewrite export_unfold.
      apply field_createLifecycleMethod_ne.
      destruct (decide (j = i)) as [->|Hj]; [right; congruence|left; congruence].
  - intros cbs. by apply registered_exports.
  - intros rerun cbs Hcalm. eexists. split.
    + apply fire_calm. by rewrite registered_exports.
    + rewrite trace_fired, registered_exports by done. f_equal.
      clear. revert w. induction cbs as [|cb cbs IH]; intros w; [done|].
      simpl. rewrite IH. rewrite export_unfold. unfold createLifecycleMethod.
      by destruct (currentInstance w).
Qed.

Lemma registration_appends_in_order_witness :
  let w := entered boot in
  (∀ cb,
     registered (export OnUpdated cb w) 0 "_u" = registered w 0 "_u" ++ [cb]
     ∧ ∀ j name, (j, name) ≠ (0, "_u") →
         field (export OnUpdated cb w) j name = field w j name)
  ∧ (∀ cbs,
       registered (foldl (λ w cb, export OnUpdated cb w) w cbs) 0 "_u"
         = registered w 0 "_u" ++ cbs)
  ∧ (∀ rerun cbs,
       all_calm (registered w 0 "_u" ++ cbs) = true →
       ∃ w', fire rerun 0 "_u" (foldl (λ w cb, export OnUpdated cb w) w cbs) = Normal w'
             ∧ trace w' = trace w ++ map (Invoke 0 "_u") (registered w 0 "_u" ++ cbs)).
Proof.
  apply (registration_appends_in_order OnUpdated (entered boot) 0).
  - reflexivity.
  - simpl. lia.
Defined.

(** C8: the attribute-name list is optional.  When the second argument is a
    function, it is the factory and no attribute is observed, whatever the
    third argument is; when the second argument is a list and a factory is
    given third, the class observes exactly that list.  The class is what
    [defineComponent] registers under the identifier. *)
Theorem defineComponent_optional_names
    (name : string) (f : Factory) (l : list string) (third : option Factory) (w : World) :
  customElements w !! name = None →
  element_class (IsFunction f) third = {| observedAttributes := []; factory := Some f |}
  ∧ element_class (IsArray l) (Some f) = {| observedAttributes := l; factory := Some f |}
  ∧ (∃ w', defineComponent name (IsFunction f) third w = Normal w'
           ∧ customElements w' !! name
               = Some {| observedAttributes := []; factory := Some f |})
  ∧ (∃ w', defineComponent name (IsArray l) (Some f) w = Normal w'
           ∧ customElements w' !! name
               = Some {| observedAttributes := l; factory := Some f |}).
Proof.
  intros Hfree. split_and!; try done.
  - unfold defineComponent, customElements_define. rewrite Hfree.
    eexists. split; [done|]. simpl. apply lookup_insert_eq.
  - unfold defineComponent, customElements_define. rewrite Hfree.
    eexists. split; [done|]. simpl. apply lookup_insert_eq.
Qed.

Lemma defineComponent_optional_names_witness :
  element_class (IsFunction {| setup := Return; render := Return |}) None
    = {| observedAttributes := [];
         factory := Some {| setup := Return; render := Return |} |}
  ∧ element_class (IsArray ["count"]) (Some {| setup := Return; render := Return |})
    = {| observedAttributes := ["count"];
         factory := Some {| setup := Return; render := Return |} |}
  ∧ (∃ w', defineComponent "my-counter"
             (IsFunction {| setup := Return; render := Return |}) None boot = Normal w'
           ∧ customElements w' !! "my-counter"
               = Some {| observedAttributes := [];
                         factory := Some {| setup := Return; render := Return |} |})
  ∧ (∃ w', defineComponent "my-counter" (IsArray ["count"])
             (Some {| setup := Return; render := Return |}) boot = Normal w'
           ∧ customElements w' !! "my-counter"
               = Some {| observedAttributes := ["count"];
                         factory := Some {| setup := Return; render := Return |} |}).
Proof.
  apply (defineComponent_optional_names "my-counter"
           {| setup := Return; render := Return |} ["count"] None boot).
  reflexivity.
Defined.

(** C9, as stated, fails for the reruns of the render computation.  The
    factory of the first element returns normally, and its construction
    registers nothing from its render function.  Then the construction of
    another element fails in its factory, and the pointer stays on that
    failed instance.  When an attribute of the first element changes
    afterwards, its render function reruns with the pointer set, and the
    registration it makes lands on the failed instance. *)
Lemma rerun_registers_on_failed_instance :
  ∃ w0 w1 w2,
    constructor 1 late_class boot = Normal w0
    ∧ field w0 0 "_u" = None
    ∧ constructor 1 thrower w0 = Raised w1
    ∧ currentInstance w1 = Some 1
    ∧ field w1 1 "_u" = None
    ∧ attributeChangedCallback 1 0 "count" VNull (VString "1") w1 = Normal w2
    ∧ currentInstance w2 = Some 1
    ∧ field w2 1 "_u" = Some [Return]
    ∧ field w2 1 "_u" ≠ field w1 1 "_u".
Proof.
  do 3 eexists. split_and!; [vm_compute; reflexivity..|].
  vm_compute. discriminate.
Qed.

(** C9, amended: once the factory has returned normally, the pointer is empty
    when the beforeMount callbacks and the render computation run during the
    construction, and it stays empty: whatever those callbacks and the render
    function do, registration calls included, the construction ends
    (normally, by an exception, or cut off at any depth) with the callback
    lists of every instance exactly as the factory left them.  The same holds
    for the reruns of the render computation that a later attribute change
    triggers when the pointer is empty as the change arrives.  When it is
    not, the pointer stays where it is and only the lists of the instance it
    refers to can change. *)
Theorem registration_after_factory_is_noop
    (fuel : nat) (cls : ElementClass) (f : Factory) (w w1 : World) :
  factory cls = Some f →
  exec (run fuel) (length (instances w)) (setup f) (entered w) = Normal w1 →
  constructor fuel cls w
    = (fire (run fuel) (length (instances w)) "_bm" (with_currentInstance None w1)
         >>= effect fuel (length (instances w)) (render f))
  ∧ currentInstance (with_currentInstance None w1) = None
  ∧ ensures (λ w', currentInstance w' = None
                   ∧ ∀ i name, field w' i name = field w1 i name)
            (constructor fuel cls w)
  ∧ (∀ w2 this name oldValue newValue,
       currentInstance w2 = None →
       ensures (λ w', currentInstance w' = None
                      ∧ ∀ i name, field w' i name = field w2 i name)
               (attributeChangedCallback fuel this name oldValue newValue w2))
  ∧ (∀ w2 this name oldValue newValue,
       ensures (λ w', currentInstance w' = currentInstance w2
                      ∧ ∀ i name, currentInstance w2 ≠ Some i →
                                  field w' i name = field w2 i name)
               (attributeChangedCallback fuel this name oldValue newValue w2)).
Proof.
  intros Hf Hs.
  assert (constructor fuel cls w
    = (fire (run fuel) (length (instances w)) "_bm" (with_currentInstance None w1)
         >>= effect fuel (length (instances w)) (render f))) as Hcons.
  { unfold constructor. rewrite Hf. fold (entered w). by rewrite Hs. }
  split_and!; [done|done| | |].
  - rewrite Hcons.
    change (ensures (idle_since (with_currentInstance None w1))
      (fire (run fuel) (length (instances w)) "_bm" (with_currentInstance None w1)
         >>= effect fuel (length (instances w)) (render f))).
    apply ensures_bind.
    + apply fire_idle. by apply idle_since_refl.
    + intros w2 Hw2. unfold effect. apply run_idle.
      destruct Hw2 as [Hc Hfl]. by split.
  - intros w2 this name oldValue newValue Hc.
    apply (reactive_set_idle w2). by apply idle_since_refl.
  - intros w2 this name oldValue newValue.
    apply (reactive_set_aimed w2). apply aimed_since_refl.
Qed.

Lemma registration_after_factory_is_noop_witness :
  constructor 1 late_class boot
    = (fire (run 1) 0 "_bm"
         (with_currentInstance None (replays 0 (path ∅ (setup late_hooks)) (entered boot)))
         >>= effect 1 0 (render late_hooks))
  ∧ currentInstance
      (with_currentInstance None (replays 0 (path ∅ (setup late_hooks)) (entered boot)))
    = None
  ∧ ensures (λ w', currentInstance w' = None
                   ∧ ∀ i name,
                       field w' i name
                       = field (replays 0 (path ∅ (setup late_hooks)) (entered boot)) i name)
            (constructor 1 late_class boot)
  ∧ (∀ w2 this name oldValue newValue,
       currentInstance w2 = None →
       ensures (λ w', currentInstance w' = None
                      ∧ ∀ i name, field w' i name = field w2 i name)
               (attributeChangedCallback 1 this name oldValue newValue w2))
  ∧ (∀ w2 this name oldValue newValue,
       ensures (λ w', currentInstance w' = currentInstance w2
                      ∧ ∀ i name, currentInstance w2 ≠ Some i →
                                  field w' i name = field w2 i name)
               (attributeChangedCallback 1 this name oldValue newValue w2)).
Proof.
  apply (registration_after_factory_is_noop 1 late_class
           late_hooks boot (replays 0 (path ∅ (setup late_hooks)) (entered boot))).
  - reflexivity.
  - vm_compute. reflexivity.
Defined.

(** C10: the callback lists do not exist until a first registration creates
    them, and every firing site tolerates that.  A fresh instance has none of
    the five lists; the first registration allocates the list; firing an
    absent list completes normally and changes nothing.  For a component
    whose factory registers nothing for a point, construction, the connected
    and disconnected transitions and attribute changes all complete
    normally, the list stays absent and no callback is invoked for the
    point (the code of the component and of the world being calm). *)
Theorem absent_callback_list_is_tolerated :
  (∀ w name, field (entered w) (length (instances w)) name = None)
  ∧ (∀ m cb w i,
       currentInstance w = Some i → i < length (instances w) →
       field w i (field_name m) = None →
       field (export m cb w) i (field_name m) = Some [cb])
  ∧ (∀ rerun this name w, field w this name = None → fire rerun this name w = Normal w)
  ∧ (∀ n cls f w name,
       factory cls = Some f → calm (setup f) = true → calm (render f) = true →
       calm_world w = true → tracker_nodup w = true →
       hooked name (path ∅ (setup f)) = [] →
       ∃ w1, constructor (S n) cls w = Normal w1
         ∧ field w1 (length (instances w)) name = None
         ∧ invoked (length (instances w)) name (trace w1)
             = invoked (length (instances w)) name (trace w)
         ∧ (∃ w2, connectedCallback n (length (instances w)) w1 = Normal w2
              ∧ field w2 (length (instances w)) name = None
              ∧ invoked (length (instances w)) name (trace w2)
                  = invoked (length (instances w)) name (trace w))
         ∧ (∃ w2, disconnectedCallback n (length (instances w)) w1 = Normal w2
              ∧ field w2 (length (instances w)) name = None
              ∧ invoked (length (instances w)) name (trace w2)
                  = invoked (length (instances w)) name (trace w))
         ∧ (∀ key oldValue newValue,
              ∃ w2, attributeChangedCallback (S n) (length (instances w))
                      key oldValue newValue w1 = Normal w2
                ∧ field w2 (length (instances w)) name = None
                ∧ invoked (length (instances w)) name (trace w2)
                    = invoked (length (instances w)) name (trace w))).
Proof.
  split_and!.
  - apply field_entered.
  - intros m cb w i Hc Hlt Hf.
    rewrite export_unfold, field_createLifecycleMethod_eq by done.
    by rewrite (registered_absent _ _ _ Hf).
  - intros rerun this name w Hf. unfold fire. by rewrite Hf.
  - intros n cls f w name Hf Hs Hr HC%calm_world_Calm HN%tracker_nodup_NoDups Hh.
    set (this := length (instances w)).
    assert (field (born f w) this name = None) as Hfb by by apply field_born_absent.
    assert (registered (born f w) this name = []) as Hrb by by apply registered_absent.
    assert (invoked this name (trace (born f w)) = invoked this name (trace w)) as Htb.
    { rewrite trace_born. fold this. rewrite !invoked_app, !invoked_map_Invoke.
      change (invoked this name [Rendered this]) with (@nil script).
      repeat case_decide; destruct_and?; simplify_eq; rewrite ?Hh, ?app_nil_r; done. }
    assert (Calm (born f w)) as HCb by by apply Calm_born.
    assert (∀ point, ∃ w2, fire (run n) this point (born f w) = Normal w2
              ∧ field w2 this name = None
              ∧ invoked this name (trace w2) = invoked this name (trace w)) as Hfire.
    { intros point. eexists. split; [apply fire_calm, HCb|]. split.
      - unfold field. rewrite instances_fired_idle by apply currentInstance_born. done.
      - rewrite trace_fired, invoked_app, Htb, invoked_map_Invoke.
        case_decide as Hd; [|by rewrite app_nil_r].
        destruct Hd as [_ ->]. by rewrite Hrb, app_nil_r. }
    exists (born f w). split_and!; [by apply constructor_calm|done|done|apply Hfire..|].
    intros key oldValue newValue. eexists. split_and!.
    + apply write_calm; [done|apply currentInstance_born].
    + pose proof (write_reran this key newValue (born f w) HCb (NoDups_born f w HN)
                    (currentInstance_born f w)) as Hre.
      unfold field. rewrite (reran_instances _ _ _ Hre).
      change (field (store this key newValue (born f w)) this name = None).
      by rewrite field_store.
    + pose proof (write_reran this key newValue (born f w) HCb (NoDups_born f w HN)
                    (currentInstance_born f w)) as Hre.
      rewrite (reran_trace _ _ _ Hre), invoked_app.
      rewrite invoked_flat_map_absent by by rewrite registered_store.
      rewrite app_nil_r. exact Htb.
Qed.

Lemma absent_callback_list_is_tolerated_witness :
  ∃ w1, constructor 1 counter_class boot = Normal w1
    ∧ field w1 (length (instances boot)) "_um" = None
    ∧ invoked (length (instances boot)) "_um" (trace w1)
        = invoked (length (instances boot)) "_um" (trace boot)
    ∧ (∃ w2, connectedCallback 0 (length (instances boot)) w1 = Normal w2
         ∧ field w2 (length (instances boot)) "_um" = None
         ∧ invoked (length (instances boot)) "_um" (trace w2)
             = invoked (length (instances boot)) "_um" (trace boot))
    ∧ (∃ w2, disconnectedCallback 0 (length (instances boot)) w1 = Normal w2
         ∧ field w2 (length (instances boot)) "_um" = None
         ∧ invoked (length (instances boot)) "_um" (trace w2)
             = invoked (length (instances boot)) "_um" (trace boot))
    ∧ (∀ key oldValue newValue,
         ∃ w2, attributeChangedCallback 1 (length (instances boot))
                 key oldValue newValue w1 = Normal w2
           ∧ field w2 (length (instances boot)) "_um" = None
           ∧ invoked (length (instances boot)) "_um" (trace w2)
               = invoked (length (instances boot)) "_um" (trace boot)).
Proof.
  apply (proj2 (proj2 (proj2 absent_callback_list_is_tolerated))
           0 counter_class counter boot "_um"); vm_compute; reflexivity.
Defined.

(** * Further properties *)

(** ** Code that throws *)

Lemma exec_quiet rerun self s : ∀ w,
  quiet s = true →
  exec rerun self s w
    = finish (raises (props_of w self) s) (replays self (path (props_of w self) s) w).
Proof.
  induction s as [| |m cb _ k IH|key k IH|key v k IH|key yes IHy no IHn];
    intros w Hq; simpl in *; try done.
  - apply andb_prop in Hq as [_ Hk]. rewrite (IH _ Hk).
    rewrite export_unfold, props_of_createLifecycleMethod. done.
  - rewrite (IH _ Hq), props_of_track. done.
  - apply andb_prop in Hq as [Hy Hn]. unfold peek.
    destruct (ToBoolean _).
    + by rewrite (IHy _ Hy), props_of_track.
    + by rewrite (IHn _ Hn), props_of_track.
Qed.

(** [forEach] stops at the first callback that throws. *)
Lemma forEach_raise rerun i name l1 cb l2 w :
  all_calm l1 = true → quiet cb = true → raises (props_of w i) cb = true →
  forEach (λ cb w, exec rerun i cb (log (Invoke i name cb) w)) (l1 ++ cb :: l2) w
    = Raised (call_cb i name (fired i name l1 w) cb).
Proof.
  revert w. induction l1 as [|c l1 IH]; intros w Hl1 Hq Hr.
  - simpl. rewrite (exec_quiet _ _ _ _ Hq).
    change (props_of (log (Invoke i name cb) w) i) with (props_of w i).
    by rewrite Hr.
  - apply all_calm_cons in Hl1 as [Hc Hl1].
    change ((c :: l1) ++ cb :: l2) with (c :: (l1 ++ cb :: l2)).
    cbn [forEach]. rewrite (exec_calm _ _ _ _ Hc). cbn [bind].
    change (props_of (log (Invoke i name c) w) i) with (props_of w i).
    fold (call_cb i name w c). rewrite fired_cons. apply IH; [done|done|].
    unfold call_cb. rewrite props_of_replays. done.
Qed.

Lemma field_of_registered w i name l :
  registered w i name = l → l ≠ [] → field w i name = Some l.
Proof. unfold registered. destruct (field w i name); simpl; congruence. Qed.

Lemma props_of_after_setup f w j :
  props_of (after_setup f w) j = props_of (entered w) j.
Proof.
  unfold after_setup.
  change (props_of (with_currentInstance None ?x) j) with (props_of x j).
  apply props_of_replays.
Qed.

Lemma trace_after_setup f w : trace (after_setup f w) = trace w.
Proof.
  unfold after_setup. cbn [trace with_currentInstance]. by rewrite trace_replays.
Qed.

Lemma effects_after_setup f w : effects (after_setup f w) = effects w.
Proof.
  unfold after_setup. cbn [effects with_currentInstance]. by rewrite effects_replays.
Qed.

Lemma length_instances_after_setup f w :
  length (instances (after_setup f w)) = S (length (instances w)).
Proof.
  unfold after_setup. cbn [instances with_currentInstance].
  rewrite length_instances_replays. unfold entered. simpl.
  rewrite length_app. simpl. lia.
Qed.

(** X1: a beforeMount callback that throws makes the construction fail at
    that callback.  The callbacks registered before it have been invoked, in
    order; the ones after it have not, nothing is rendered and no render
    computation is created; the pointer is empty, and the instance keeps the
    callback lists that the factory registered. *)
Theorem throwing_beforeMount_aborts_construction
    (fuel : nat) (cls : ElementClass) (f : Factory)
    (l1 : list script) (cb : script) (l2 : list script) (w : World) :
  factory cls = Some f →
  quiet (setup f) = true → raises ∅ (setup f) = false →
  hooked "_bm" (path ∅ (setup f)) = l1 ++ cb :: l2 →
  all_calm l1 = true → quiet cb = true → raises ∅ cb = true →
  ∃ w', constructor fuel cls w = Raised w'
    ∧ trace w' = trace w
        ++ map (Invoke (length (instances w)) "_bm") l1
        ++ [Invoke (length (instances w)) "_bm" cb]
    ∧ effects w' = effects w
    ∧ currentInstance w' = None
    ∧ length (instances w') = S (length (instances w))
    ∧ (∀ name, registered w' (length (instances w)) name
               = hooked name (path ∅ (setup f))).
Proof.
  intros Hf Hq Hr Hbm Hl1 Hcb Hthrow.
  set (this := length (instances w)).
  assert (constructor fuel cls w
          = Raised (call_cb this "_bm" (fired this "_bm" l1 (after_setup f w)) cb)) as Hc.
  { unfold constructor. rewrite Hf. fold (entered w). fold this.
    rewrite (exec_quiet _ _ _ _ Hq). unfold this. rewrite props_of_entered, Hr.
    cbn [finish bind]. fold (after_setup f w). fold this.
    unfold fire. rewrite (field_of_registered _ _ _ (l1 ++ cb :: l2)).
    - rewrite forEach_raise; [done|done|done|].
      unfold this. by rewrite props_of_after_setup, props_of_entered.
    - unfold this. by rewrite registered_after_setup.
    - by destruct l1. }
  eexists. split; [exact Hc|]. split_and!.
  - unfold call_cb. rewrite trace_replays. cbn [trace log].
    rewrite trace_fired, trace_after_setup. by rewrite <- app_assoc.
  - unfold call_cb. rewrite effects_replays. cbn [effects log].
    by rewrite effects_fired, effects_after_setup.
  - unfold call_cb. rewrite currentInstance_replays. cbn [currentInstance log].
    by rewrite currentInstance_fired.
  - unfold call_cb. rewrite length_instances_replays. cbn [instances log].
    by rewrite length_instances_fired, length_instances_after_setup.
  - intros name. unfold registered, field, call_cb.
    rewrite instances_replays_idle.
    + cbn [instances log]. rewrite instances_fired_idle by done.
      apply registered_after_setup.
    + cbn [currentInstance log]. by rewrite currentInstance_fired.
Qed.

Lemma throwing_beforeMount_aborts_construction_witness :
  ∃ w', constructor 1 {| observedAttributes := ["count"]; factory := Some fragile |} boot
          = Raised w'
    ∧ trace w' = trace boot
        ++ map (Invoke (length (instances boot)) "_bm") [Return]
        ++ [Invoke (length (instances boot)) "_bm" Throw]
    ∧ effects w' = effects boot
    ∧ currentInstance w' = None
    ∧ length (instances w') = S (length (instances boot))
    ∧ (∀ name, registered w' (length (instances boot)) name
               = hooked name (path ∅ (setup fragile))).
Proof.
  apply (throwing_beforeMount_aborts_construction 1
           {| observedAttributes := ["count"]; factory := Some fragile |}
           fragile [Return] Throw [Return] boot); reflexivity.
Defined.

(** X2: when the render function throws during the rerun that an attribute
    change triggers, the exception comes out of the notification.  The
    assignment to the props has been made all the same (for a name other
    than [__proto__], the key holds the new value); lit-html's render is not
    called and no updated callback fires; the computation still counts as
    mounted. *)
Theorem throwing_render_keeps_the_write
    (n this : nat) (name : string) (oldValue newValue : value)
    (c : Computation) (w : World) :
  this < length (instances w) →
  effects w !! this = Some c → isMounted c = true →
  quiet (template c) = true →
  raises (assign name newValue (props_of w this)) (template c) = true →
  dependents w this name = [this] →
  ∃ w', attributeChangedCallback (S n) this name oldValue newValue w = Raised w'
    ∧ props_of w' this = assign name newValue (props_of w this)
    ∧ (name ≠ "__proto__" → peek this name w' = Value newValue)
    ∧ trace w' = trace w
    ∧ mounted w' this = true.
Proof.
  intros Hlt He Hm Hq Hr Hdep.
  set (ws := store this name newValue w).
  set (w1 := with_activeEffect (Some this) (count_run this (cleanup this ws))).
  assert (props_of w1 this = assign name newValue (props_of w this)) as Hp.
  { change (props_of w1 this) with (props_of ws this). by apply props_of_store_eq. }
  assert (effects w1 !! this =
    Some {| template := template c; isMounted := isMounted c; runs := S (runs c) |}) as He1.
  { simpl. by rewrite lookup_alter_eq, He. }
  assert (attributeChangedCallback (S n) this name oldValue newValue w
          = Raised (replays this (path (props_of w1 this) (template c)) w1)) as Hc.
  { unfold attributeChangedCallback, reactive_set, trigger. fold ws.
    change (dependents ws this name) with (dependents w this name). rewrite Hdep.
    cbn [forEach]. cbn [run].
    change (effects ws !! this) with (effects w !! this). rewrite He. fold w1.
    unfold effect_fn. rewrite He1. unfold mounted at 1. rewrite He1. simpl from_option.
    rewrite Hm. cbn [negb bind template]. rewrite (exec_quiet _ _ _ _ Hq).
    rewrite Hp, Hr. done. }
  eexists. split; [exact Hc|]. split_and!.
  - by rewrite props_of_replays.
  - intros Hne. unfold peek. rewrite props_of_replays, Hp. by apply member_assign_eq.
  - by rewrite trace_replays.
  - unfold mounted. rewrite effects_replays, He1. done.
Qed.

Lemma throwing_render_keeps_the_write_witness :
  ∃ w', attributeChangedCallback 1 0 "bad" VNull (VString "yes") picky_world = Raised w'
    ∧ props_of w' 0 = assign "bad" (VString "yes") (props_of picky_world 0)
    ∧ ("bad" ≠ "__proto__" → peek 0 "bad" w' = Value (VString "yes"))
    ∧ trace w' = trace picky_world
    ∧ mounted w' 0 = true.
Proof.
  apply (throwing_render_keeps_the_write 0 0 "bad" VNull (VString "yes")
           {| template := render picky; isMounted := true; runs := 1 |} picky_world).
  - vm_compute. lia.
  - vm_compute. reflexivity.
  - reflexivity.
  - reflexivity.
  - vm_compute. reflexivity.
  - vm_compute. reflexivity.
Defined.

(** ** Connection and disconnection *)

Lemma fire_calm_frame rerun this name w :
  Calm w → currentInstance w = None → activeEffect w = None →
  ∃ w1, fire rerun this name w = Normal w1
    ∧ trace w1 = trace w ++ map (Invoke this name) (registered w this name)
    ∧ instances w1 = instances w ∧ effects w1 = effects w ∧ targetMap w1 = targetMap w
    ∧ currentInstance w1 = None ∧ activeEffect w1 = None.
Proof.
  intros [Hreg _] Hcur Hact. eexists. split; [apply fire_calm, Hreg|]. split_and!.
  - apply trace_fired.
  - by apply instances_fired_idle.
  - apply effects_fired.
  - by apply targetMap_fired_idle.
  - by rewrite currentInstance_fired.
  - by rewrite activeEffect_fired.
Qed.

(** X3: a connection invokes the mounted callbacks, in order, and does
    nothing else: nothing is rendered, no props, callback list, computation or
    dependency changes.  There is no once-only guard: a second connection
    invokes them all again. *)
Theorem connection_fires_mounted_every_time (n this : nat) (w : World) :
  calm_world w = true → currentInstance w = None → activeEffect w = None →
  ∃ w1, connectedCallback n this w = Normal w1
    ∧ trace w1 = trace w ++ map (Invoke this "_m") (registered w this "_m")
    ∧ instances w1 = instances w ∧ effects w1 = effects w ∧ targetMap w1 = targetMap w
    ∧ ∃ w2, connectedCallback n this w1 = Normal w2
        ∧ trace w2 = trace w
            ++ map (Invoke this "_m") (registered w this "_m")
            ++ map (Invoke this "_m") (registered w this "_m").
Proof.
  intros HC%calm_world_Calm Hcur Hact.
  destruct (fire_calm_frame (run n) this "_m" w HC Hcur Hact)
    as (w1 & Hf1 & Ht1 & Hi1 & He1 & Htm1 & Hc1 & Ha1).
  exists w1. split_and!; try done.
  destruct (fire_calm_frame (run n) this "_m" w1 (Calm_same _ _ Hi1 He1 HC) Hc1 Ha1)
    as (w2 & Hf2 & Ht2 & _).
  exists w2. split; [done|].
  rewrite Ht2, Ht1. unfold registered, field. rewrite Hi1. by rewrite <- app_assoc.
Qed.

Lemma connection_fires_mounted_every_time_witness :
  ∃ w1, connectedCallback 0 0 (born late_hooks boot) = Normal w1
    ∧ trace w1 = trace (born late_hooks boot)
        ++ map (Invoke 0 "_m") (registered (born late_hooks boot) 0 "_m")
    ∧ instances w1 = instances (born late_hooks boot)
    ∧ effects w1 = effects (born late_hooks boot)
    ∧ targetMap w1 = targetMap (born late_hooks boot)
    ∧ ∃ w2, connectedCallback 0 0 w1 = Normal w2
        ∧ trace w2 = trace (born late_hooks boot)
            ++ map (Invoke 0 "_m") (registered (born late_hooks boot) 0 "_m")
            ++ map (Invoke 0 "_m") (registered (born late_hooks boot) 0 "_m").
Proof.
  apply (connection_fires_mounted_every_time 0 0 (born late_hooks boot));
    vm_compute; reflexivity.
Defined.

(** X4: a disconnection invokes the unmounted callbacks and tears nothing
    down: the render computation keeps its dependencies, so an attribute
    change that arrives afterwards still renders and fires the updated
    callbacks. *)
Theorem disconnection_keeps_the_render_computation
    (n this : nat) (name : string) (oldValue newValue : value) (w : World) :
  calm_world w = true → currentInstance w = None → activeEffect w = None →
  mounted w this = true → dependents w this name = [this] →
  ∃ w1, disconnectedCallback n this w = Normal w1
    ∧ trace w1 = trace w ++ map (Invoke this "_um") (registered w this "_um")
    ∧ effects w1 = effects w ∧ targetMap w1 = targetMap w
    ∧ ∃ w2, attributeChangedCallback (S n) this name oldValue newValue w1 = Normal w2
        ∧ trace w2 = trace w1
            ++ Rendered this :: map (Invoke this "_u") (registered w this "_u")
        ∧ runs_of w2 this = S (runs_of w this).
Proof.
  intros HC%calm_world_Calm Hcur Hact Hm Hdep.
  destruct (fire_calm_frame (run n) this "_um" w HC Hcur Hact)
    as (w1 & Hf1 & Ht1 & Hi1 & He1 & Htm1 & Hc1 & Ha1).
  exists w1. split_and!; try done.
  assert (Calm w1) as HC1 by by eapply Calm_same.
  unfold mounted in Hm. destruct (effects w !! this) as [c|] eqn:He; [|done].
  simpl in Hm.
  assert (dependents w1 this name = [this]) as Hdep1.
  { unfold dependents. rewrite Htm1. exact Hdep. }
  eexists. split; [unfold attributeChangedCallback; by apply write_calm|].
  rewrite Hdep1.
  change (rerun_all [this] ?x) with (rerun_one x this). unfold rerun_one.
  change (effects (store this name newValue w1) !! this) with (effects w1 !! this).
  rewrite He1, He. split.
  - rewrite trace_ran, Hm. rewrite registered_store. unfold registered, field.
    by rewrite Hi1.
  - unfold runs_of. rewrite (effects_ran this c); [|simpl; by rewrite He1].
    by rewrite lookup_insert_eq, He.
Qed.

Lemma disconnection_keeps_the_render_computation_witness :
  ∃ w1, disconnectedCallback 0 0 counter_world = Normal w1
    ∧ trace w1 = trace counter_world
        ++ map (Invoke 0 "_um") (registered counter_world 0 "_um")
    ∧ effects w1 = effects counter_world ∧ targetMap w1 = targetMap counter_world
    ∧ ∃ w2, attributeChangedCallback 1 0 "count" VNull (VString "1") w1 = Normal w2
        ∧ trace w2 = trace w1
            ++ Rendered 0 :: map (Invoke 0 "_u") (registered counter_world 0 "_u")
        ∧ runs_of w2 0 = S (runs_of counter_world 0).
Proof.
  apply (disconnection_keeps_the_render_computation 0 0 "count" VNull (VString "1")
           counter_world); vm_compute; reflexivity.
Defined.

(** ** What a construction tracks and touches *)

Lemma activeEffect_after_setup f w : activeEffect (after_setup f w) = activeEffect w.
Proof.
  unfold after_setup. cbn [activeEffect with_currentInstance].
  by rewrite activeEffect_replays.
Qed.

Lemma dependents_with_first_effect f w o key :
  activeEffect w = None → dependents (with_first_effect f w) o key = dependents w o key.
Proof.
  intros Hact. unfold dependents, with_first_effect, after_beforeMount.
  cbn [targetMap with_effects].
  rewrite targetMap_fired_idle by by rewrite activeEffect_after_setup.
  unfold after_setup. cbn [targetMap with_currentInstance].
  by rewrite targetMap_replays_idle.
Qed.

Lemma elem_of_dependents_born f w e o key :
  activeEffect w = None →
  e ∈ dependents (born f w) o key ↔
  (e ≠ length (instances w) ∧ e ∈ dependents w o key)
  ∨ (e = length (instances w) ∧ o = length (instances w)
     ∧ key ∈ flat_map (reads ∅) (hooked "_bu" (path ∅ (setup f))) ++ reads ∅ (render f)).
Proof.
  intros Hact. unfold born. rewrite elem_of_dependents_ran.
  cbn [isMounted first_effect template].
  rewrite dependents_with_first_effect by done.
  change (props_of (with_first_effect f w) ?j) with (props_of (after_beforeMount f w) j).
  change (registered (with_first_effect f w) ?i ?n)
    with (registered (after_beforeMount f w) i n).
  rewrite registered_after_beforeMount.
  unfold after_beforeMount at 1 2. rewrite props_of_fired, props_of_after_setup.
  by rewrite props_of_entered.
Qed.

Lemma activeEffect_born f w : activeEffect (born f w) = activeEffect w.
Proof.
  unfold born. rewrite activeEffect_ran. unfold with_first_effect, after_beforeMount.
  cbn [activeEffect with_effects]. by rewrite activeEffect_fired, activeEffect_after_setup.
Qed.

(** X5: only what is read while the render computation runs is tracked.
    After a construction the new computation depends on exactly the keys read
    by the beforeUpdate callbacks and by the render function; what the factory
    body or a beforeMount callback read is not a dependency, the dependencies
    of other computations are as before, and the reads of mounted callbacks,
    made at connection, are not tracked either. *)
Theorem only_render_time_reads_are_tracked
    (n : nat) (cls : ElementClass) (f : Factory) (w : World) :
  factory cls = Some f → calm (setup f) = true → calm (render f) = true →
  activeEffect w = None →
  ∃ w', constructor (S n) cls w = Normal w'
    ∧ (∀ o key, length (instances w) ∈ dependents w' o key ↔
         o = length (instances w)
         ∧ key ∈ flat_map (reads ∅) (hooked "_bu" (path ∅ (setup f)))
                 ++ reads ∅ (render f))
    ∧ (∀ e o key, e ≠ length (instances w) →
         (e ∈ dependents w' o key ↔ e ∈ dependents w o key))
    ∧ (∀ n', ∃ w'', connectedCallback n' (length (instances w)) w' = Normal w''
                    ∧ targetMap w'' = targetMap w').
Proof.
  intros Hf Hs Hr Hact. exists (born f w). split_and!.
  - by apply constructor_calm.
  - intros o key. rewrite elem_of_dependents_born by done. tauto.
  - intros e o key Hne. rewrite elem_of_dependents_born by done. tauto.
  - intros n'. eexists. split.
    + apply fire_calm. rewrite registered_born. by apply all_calm_hooked.
    + apply targetMap_fired_idle. by rewrite activeEffect_born.
Qed.

Lemma only_render_time_reads_are_tracked_witness :
  ∃ w', constructor 1 counter_class boot = Normal w'
    ∧ (∀ o key, length (instances boot) ∈ dependents w' o key ↔
         o = length (instances boot)
         ∧ key ∈ flat_map (reads ∅) (hooked "_bu" (path ∅ (setup counter)))
                 ++ reads ∅ (render counter))
    ∧ (∀ e o key, e ≠ length (instances boot) →
         (e ∈ dependents w' o key ↔ e ∈ dependents boot o key))
    ∧ (∀ n', ∃ w'', connectedCallback n' (length (instances boot)) w' = Normal w''
                    ∧ targetMap w'' = targetMap w').
Proof.
  apply (only_render_time_reads_are_tracked 0 counter_class counter boot); reflexivity.
Defined.

(** X6: a construction adds one instance, with empty props, and one
    computation, that of the render function, at the new instance's number;
    the callbacks that the factory registers are on the new instance, in
    order; every other instance and computation and the registry are as they
    were. *)
Theorem construction_touches_no_other_instance
    (n : nat) (cls : ElementClass) (f : Factory) (w : World) :
  factory cls = Some f → calm (setup f) = true → calm (render f) = true →
  ∃ w', constructor (S n) cls w = Normal w'
    ∧ length (instances w') = S (length (instances w))
    ∧ props_of w' (length (instances w)) = ∅
    ∧ (∀ name, registered w' (length (instances w)) name
               = hooked name (path ∅ (setup f)))
    ∧ effects w' !! length (instances w)
      = Some {| template := render f; isMounted := true; runs := 1 |}
    ∧ (∀ j, j ≠ length (instances w) →
         props_of w' j = props_of w j ∧ ∀ name, field w' j name = field w j name)
    ∧ (∀ e, e ≠ length (instances w) → effects w' !! e = effects w !! e)
    ∧ customElements w' = customElements w.
Proof.
  intros Hf Hs Hr. exists (born f w). split_and!.
  - by apply constructor_calm.
  - apply length_instances_born.
  - rewrite props_of_born. unfold props_of. by rewrite lookup_ge_None_2.
  - intros name. apply registered_born.
  - rewrite effects_born. apply lookup_insert_eq.
  - intros j Hne. split; [apply props_of_born|]. intros name. by apply field_born_other.
  - intros e Hne. rewrite effects_born. by apply lookup_insert_ne.
  - unfold born. rewrite customElements_ran. unfold with_first_effect, after_beforeMount.
    cbn [customElements with_effects]. rewrite customElements_fired.
    unfold after_setup. cbn [customElements with_currentInstance].
    by rewrite customElements_replays.
Qed.

Lemma construction_touches_no_other_instance_witness :
  ∃ w', constructor 1 counter_class counter_world = Normal w'
    ∧ length (instances w') = S (length (instances counter_world))
    ∧ props_of w' (length (instances counter_world)) = ∅
    ∧ (∀ name, registered w' (length (instances counter_world)) name
               = hooked name (path ∅ (setup counter)))
    ∧ effects w' !! length (instances counter_world)
      = Some {| template := render counter; isMounted := true; runs := 1 |}
    ∧ (∀ j, j ≠ length (instances counter_world) →
         props_of w' j = props_of counter_world j
         ∧ ∀ name, field w' j name = field counter_world j name)
    ∧ (∀ e, e ≠ length (instances counter_world) →
         effects w' !! e = effects counter_world !! e)
    ∧ customElements w' = customElements counter_world.
Proof.
  apply (construction_touches_no_other_instance 0 counter_class counter counter_world);
    reflexivity.
Defined.

(** ** One instance's writes rerun only that instance *)

Lemma isolated_Isolated w : isolated w = true → Isolated w.
Proof.
  unfold isolated. intros H o key e He. unfold dependents in He.
  destruct (targetMap w !! (o, key)) as [l|] eqn:Hl; simpl in He; [|by apply elem_of_nil in He].
  rewrite forallb_forall in H. specialize (H ((o, key), l)). simpl in H.
  assert (forallb (Nat.eqb o) l = true) as Hall.
  { apply H, list_elem_of_In, elem_of_map_to_list. done. }
  rewrite forallb_forall in Hall. symmetry.
  apply Nat.eqb_eq, Hall, list_elem_of_In. done.
Qed.

Lemma Isolated_isolated w : Isolated w → isolated w = true.
Proof.
  intros HI. unfold isolated. apply forallb_forall. intros [[o key] l] Hl.
  apply list_elem_of_In, elem_of_map_to_list in Hl. simpl.
  apply forallb_forall. intros e He. apply Nat.eqb_eq. symmetry.
  apply (HI o key). unfold dependents. rewrite Hl. simpl. by apply list_elem_of_In.
Qed.

Lemma instance_of_run_events w e ev : ev ∈ run_events w e → instance_of ev = e.
Proof.
  unfold run_events. destruct (effects w !! e) as [c|]; [|by intros ?%elem_of_nil].
  destruct (isMounted c).
  - intros [->|Hin]%elem_of_cons; [done|].
    apply list_elem_of_fmap in Hin as (cb & -> & _). done.
  - intros [Hin|Hin]%elem_of_app.
    + apply list_elem_of_fmap in Hin as (cb & -> & _). done.
    + apply list_elem_of_singleton in Hin as ->. done.
Qed.

Lemma Isolated_reran l w w' : Isolated w → reran l w w' → Isolated w'.
Proof.
  intros HI Hre o key e He. rewrite (reran_dependents _ _ _ Hre) in He.
  case_decide; [by destruct He|by apply (HI o key)].
Qed.

(** X7: an attribute change on one instance reruns no other instance's
    computation: the other computations and instances are as before, every
    event of the notification belongs to the notified instance, and the
    dependencies stay separate. *)
Theorem attribute_change_reruns_only_its_instance
    (n this : nat) (name : string) (oldValue newValue : value) (w : World) :
  calm_world w = true → tracker_nodup w = true → isolated w = true →
  currentInstance w = None →
  ∃ w', attributeChangedCallback (S n) this name oldValue newValue w = Normal w'
    ∧ (∀ e, e ≠ this → effects w' !! e = effects w !! e)
    ∧ (∀ j, j ≠ this → instances w' !! j = instances w !! j)
    ∧ (∃ delta, trace w' = trace w ++ delta ∧ ∀ ev, ev ∈ delta → instance_of ev = this)
    ∧ isolated w' = true.
Proof.
  intros HC%calm_world_Calm HN%tracker_nodup_NoDups HI%isolated_Isolated Hcur.
  pose proof (write_reran this name newValue w HC HN Hcur) as Hre.
  eexists. split; [unfold attributeChangedCallback; by apply write_calm|]. split_and!.
  - intros e Hne. rewrite (reran_effects _ _ _ Hre). rewrite decide_False; [done|].
    intros Hin. by apply HI in Hin.
  - intros j Hne. rewrite (reran_instances _ _ _ Hre). simpl.
    by apply list_lookup_alter_ne.
  - eexists. split; [apply (reran_trace _ _ _ Hre)|].
    intros ev Hev. apply list_elem_of_In, in_flat_map in Hev as (e & He & Hev).
    apply list_elem_of_In in He, Hev. apply HI in He as ->.
    by apply instance_of_run_events in Hev.
  - apply Isolated_isolated.
    by apply (Isolated_reran _ (store this name newValue w) _ HI Hre).
Qed.

Lemma attribute_change_reruns_only_its_instance_witness :
  ∃ w', attributeChangedCallback 1 0 "count" VNull (VString "1")
          (born counter counter_world) = Normal w'
    ∧ (∀ e, e ≠ 0 → effects w' !! e = effects (born counter counter_world) !! e)
    ∧ (∀ j, j ≠ 0 → instances w' !! j = instances (born counter counter_world) !! j)
    ∧ (∃ delta, trace w' = trace (born counter counter_world) ++ delta
                ∧ ∀ ev, ev ∈ delta → instance_of ev = 0)
    ∧ isolated w' = true.
Proof.
  apply (attribute_change_reruns_only_its_instance 0 0 "count" VNull (VString "1")
           (born counter counter_world)); vm_compute; reflexivity.
Defined.

Lemma transition_apart w w' :
  ready w →
  Isolated w ∧ activeEffect w = None
    ∧ (∀ e, is_Some (effects w !! e) → e < length (instances w)) →
  transition w w' →
  Isolated w' ∧ activeEffect w' = None
    ∧ (∀ e, is_Some (effects w' !! e) → e < length (instances w')).
Proof.
  intros (HC & HN & Hcur & Hm) (HI & Hact & Hb) Ht. destruct Ht as
    [name propDefs third w w' Hd|n cls f w w' Hf Hs Hrd Hc|n this w w' Hc
    |n this w w' Hc|n this name oldValue newValue w w' Hc|m cb w].
  - unfold defineComponent, customElements_define in Hd.
    destruct (customElements w !! name); [done|]. by injection Hd as <-.
  - rewrite (constructor_calm n cls f w Hf Hs Hrd) in Hc. injection Hc as <-.
    split_and!.
    + intros o key e He. apply elem_of_dependents_born in He; [|done].
      destruct He as [[_ He]|(-> & -> & _)]; [by apply (HI o key)|done].
    + by rewrite activeEffect_born.
    + intros e. rewrite effects_born, length_instances_born.
      destruct (decide (length (instances w) = e)) as [<-|Hne]; [lia|].
      rewrite lookup_insert_ne by done. intros He%Hb. lia.
  - destruct (fire_calm_frame (run n) this "_m" w HC Hcur Hact)
      as (w1 & Hf1 & _ & Hi1 & He1 & Htm1 & _ & Ha1).
    unfold connectedCallback in Hc. rewrite Hf1 in Hc. injection Hc as <-.
    split_and!; [|done|].
    + intros o key e. unfold dependents. rewrite Htm1. apply (HI o key).
    + intros e. rewrite He1, Hi1. apply Hb.
  - destruct (fire_calm_frame (run n) this "_um" w HC Hcur Hact)
      as (w1 & Hf1 & _ & Hi1 & He1 & Htm1 & _ & Ha1).
    unfold disconnectedCallback in Hc. rewrite Hf1 in Hc. injection Hc as <-.
    split_and!; [|done|].
    + intros o key e. unfold dependents. rewrite Htm1. apply (HI o key).
    + intros e. rewrite He1, Hi1. apply Hb.
  - unfold attributeChangedCallback in Hc. rewrite write_calm in Hc by done.
    injection Hc as <-.
    pose proof (write_reran this name newValue w HC HN Hcur) as Hre.
    split_and!.
    + by apply (Isolated_reran _ (store this name newValue w) _ HI Hre).
    + by rewrite (reran_activeEffect _ _ _ Hre).
    + intros e. rewrite (reran_effects _ _ _ Hre), (reran_instances _ _ _ Hre).
      simpl. rewrite length_alter. intros He. apply Hb.
      case_decide; [|done]. by apply fmap_is_Some in He.
  - by rewrite export_unfold, createLifecycleMethod_idle.
Qed.

(** X8: in every world reached from the initial one by definitions,
    constructions of calm components, connections, disconnections, attribute
    changes and stray registration calls, no instance is current and no
    computation is running between two steps, every computation belongs to an
    existing instance and has completed its first run, and the dependents of a
    key of an instance's props are at most that instance's own computation,
    listed once. *)
Theorem reachable_worlds_keep_instances_apart (w : World) :
  reachable w →
  currentInstance w = None ∧ activeEffect w = None
  ∧ isolated w = true ∧ tracker_nodup w = true ∧ calm_world w = true
  ∧ (∀ e, is_Some (effects w !! e) → e < length (instances w) ∧ mounted w e = true).
Proof.
  intros Hr.
  assert (ready w ∧ Isolated w ∧ activeEffect w = None
          ∧ (∀ e, is_Some (effects w !! e) → e < length (instances w)))
    as ((HC & HN & Hcur & Hm) & HI & Hact & Hb).
  { induction Hr as [|w w' _ IH Ht].
    - split; [apply ready_boot|]. split_and!; [|done|].
      + intros o key e He. by apply elem_of_nil in He.
      + intros e [c Hc]. change (effects boot) with (∅ : gmap nat Computation) in Hc.
        by rewrite lookup_empty in Hc.
    - destruct IH as [Hrd Hap]. split; [by eapply transition_ready|].
      by eapply transition_apart. }
  split_and!; [done|done|by apply Isolated_isolated|by apply NoDups_tracker_nodup
              |by apply Calm_calm_world|].
  intros e He. split; [by apply Hb|].
  destruct He as [c Hc]. unfold mounted. rewrite Hc. simpl. by eapply Hm.
Qed.

Lemma reachable_worlds_keep_instances_apart_witness :
  currentInstance counter_world = None ∧ activeEffect counter_world = None
  ∧ isolated counter_world = true ∧ tracker_nodup counter_world = true
  ∧ calm_world counter_world = true
  ∧ (∀ e, is_Some (effects counter_world !! e) →
          e < length (instances counter_world) ∧ mounted counter_world e = true).
Proof.
  apply (reachable_worlds_keep_instances_apart counter_world).
  apply (reachable_step boot counter_world reachable_boot).
  apply (by_construct 0 counter_class counter boot counter_world);
    [reflexivity|reflexivity|reflexivity|vm_compute; reflexivity].
Defined.

(** ** Defaults written by the factory *)

Lemma stores_cons o kv l w : stores o (kv :: l) w = stores o l (store o kv.1 kv.2 w).
Proof. done. Qed.

Lemma stores_preserve {A} (f : World → A) o :
  (∀ key v w, f (store o key v w) = f w) → ∀ l w, f (stores o l w) = f w.
Proof.
  intros Hf l. induction l as [|kv l IH]; intros w; [done|].
  by rewrite stores_cons, IH, Hf.
Qed.

Lemma props_of_stores o l : ∀ w,
  o < length (instances w) → props_of (stores o l w) o = writes l (props_of w o).
Proof.
  induction l as [|kv l IH]; intros w Hlt; [done|].
  rewrite stores_cons, IH.
  - by rewrite props_of_store_eq.
  - simpl. by rewrite length_alter.
Qed.

Lemma exec_defaults rerun this l k : ∀ w,
  Forall (λ kv, dependents w this kv.1 = []) l →
  exec rerun this (defaults l k) w = exec rerun this k (stores this l w).
Proof.
  induction l as [|kv l IH]; intros w Hl; [done|].
  apply Forall_cons in Hl as [Hkv Hl]. rewrite stores_cons.
  change (defaults (kv :: l) k) with (Put kv.1 kv.2 (defaults l k)).
  cbn [exec]. unfold reactive_set, trigger.
  change (dependents (store this kv.1 kv.2 w) this kv.1) with (dependents w this kv.1).
  rewrite Hkv. cbn [forEach bind]. by apply IH.
Qed.

(** X9: defaults that the factory writes into the props before anything has
    read them are plain stores: they rerun nothing, the render function runs
    once, and it runs against the defaults, as do the callbacks of the first
    run, so that the computation depends on the keys read on the branches
    that the defaults select. *)
Theorem factory_defaults_reach_the_first_render
    (n : nat) (cls : ElementClass) (f : Factory)
    (l : list (string * value)) (k : script) (w : World) :
  factory cls = Some f → setup f = defaults l k →
  calm k = true → calm (render f) = true →
  Forall (λ kv, dependents w (length (instances w)) kv.1 = []) l →
  ∃ w', constructor (S n) cls w = Normal w'
    ∧ props_of w' (length (instances w)) = writes l ∅
    ∧ runs_of w' (length (instances w)) = 1
    ∧ trace w' = trace w
        ++ map (Invoke (length (instances w)) "_bm") (hooked "_bm" (path (writes l ∅) k))
        ++ map (Invoke (length (instances w)) "_bu") (hooked "_bu" (path (writes l ∅) k))
        ++ [Rendered (length (instances w))]
    ∧ (∀ o key, length (instances w) ∈ dependents w' o key ↔
         o = length (instances w)
         ∧ key ∈ flat_map (reads (writes l ∅)) (hooked "_bu" (path (writes l ∅) k))
                 ++ reads (writes l ∅) (render f)).
Proof.
  intros Hf Hsetup Hk Hr Hl.
  set (this := length (instances w)) in *.
  set (ps := writes l ∅).
  set (w0 := stores this l (entered w)).
  assert (this < length (instances (entered w))) as Hlt.
  { unfold entered. simpl. rewrite length_app. simpl. fold this. lia. }
  assert (props_of w0 this = ps) as Hp0.
  { unfold w0. rewrite props_of_stores by done. unfold this. by rewrite props_of_entered. }
  assert (instances_len : length (instances w0) = length (instances (entered w))).
  { unfold w0. apply (stores_preserve (λ w, length (instances w))).
    intros. simpl. apply length_alter. }
  assert (∀ name, registered w0 this name = []) as Hreg0.
  { intros name. unfold w0.
    rewrite (stores_preserve (λ w, registered w this name)).
    - apply registered_entered.
    - intros. apply registered_store. }
  set (w1 := with_currentInstance None (replays this (path ps k) w0)).
  assert (∀ name, registered w1 this name = hooked name (path ps k)) as Hreg1.
  { intros name.
    change (registered (replays this (path ps k) w0) this name = hooked name (path ps k)).
    rewrite registered_replays; [by rewrite Hreg0| |lia].
    unfold w0. by rewrite (stores_preserve currentInstance). }
  set (w2 := fired this "_bm" (registered w1 this "_bm") w1).
  set (c := first_effect f).
  set (w3 := with_effects (<[this := c]> (effects w2)) w2).
  assert (instances w3 = instances w1) as Hi3.
  { unfold w3, w2. cbn [instances with_effects]. by rewrite instances_fired_idle. }
  assert (∀ name, registered w3 this name = hooked name (path ps k)) as Hreg3.
  { intros name. unfold registered, field. rewrite Hi3. apply Hreg1. }
  assert (∀ j, props_of w3 j = props_of w0 j) as Hp3.
  { intros j. unfold props_of. rewrite Hi3.
    change (props_of (replays this (path ps k) w0) j = props_of w0 j).
    apply props_of_replays. }
  assert (constructor (S n) cls w = Normal (ran this c w3)) as Hc.
  { unfold constructor. rewrite Hf, Hsetup. fold (entered w). fold this.
    rewrite exec_defaults by done. fold w0.
    rewrite (exec_calm _ _ _ _ Hk), Hp0. cbn [bind]. fold w1.
    rewrite fire_calm by (rewrite Hreg1; by apply all_calm_hooked).
    cbn [bind]. fold w2. unfold effect. fold c. fold w3.
    apply run_calm.
    - unfold w3, w2. cbn [currentInstance with_effects]. by rewrite currentInstance_fired.
    - unfold w3. simpl. apply lookup_insert_eq.
    - done.
    - rewrite Hreg3. by apply all_calm_hooked.
    - rewrite Hreg3. by apply all_calm_hooked. }
  assert (trace w3 = trace w ++ map (Invoke this "_bm") (hooked "_bm" (path ps k))) as Ht3.
  { unfold w3, w2. cbn [trace with_effects]. rewrite trace_fired, Hreg1. f_equal.
    unfold w1. cbn [trace with_currentInstance]. rewrite trace_replays.
    unfold w0. by rewrite (stores_preserve trace). }
  exists (ran this c w3). split; [exact Hc|]. split_and!.
  - by rewrite props_of_ran, Hp3.
  - unfold runs_of. rewrite (effects_ran this c); [|unfold w3; simpl; apply lookup_insert_eq].
    by rewrite lookup_insert_eq.
  - rewrite trace_ran, Ht3. cbn [isMounted c first_effect]. rewrite Hreg3.
    by rewrite <- app_assoc.
  - intros o key. rewrite elem_of_dependents_ran. cbn [isMounted template c first_effect].
    rewrite Hreg3, Hp3, Hp0. split; [|by right].
    intros [[? _]|(_ & ? & ?)]; done.
Qed.

Lemma factory_defaults_reach_the_first_render_witness :
  ∃ w', constructor 1 {| observedAttributes := ["flag"]; factory := Some preset |} boot
          = Normal w'
    ∧ props_of w' (length (instances boot)) = writes [("flag", VString "on")] ∅
    ∧ runs_of w' (length (instances boot)) = 1
    ∧ trace w' = trace boot
        ++ map (Invoke (length (instances boot)) "_bm")
               (hooked "_bm" (path (writes [("flag", VString "on")] ∅)
                                   (Hook OnBeforeUpdate (Get "seen" Return) Return)))
        ++ map (Invoke (length (instances boot)) "_bu")
               (hooked "_bu" (path (writes [("flag", VString "on")] ∅)
                                   (Hook OnBeforeUpdate (Get "seen" Return) Return)))
        ++ [Rendered (length (instances boot))]
    ∧ (∀ o key, length (instances boot) ∈ dependents w' o key ↔
         o = length (instances boot)
         ∧ key ∈ flat_map (reads (writes [("flag", VString "on")] ∅))
                   (hooked "_bu" (path (writes [("flag", VString "on")] ∅)
                                       (Hook OnBeforeUpdate (Get "seen" Return) Return)))
                 ++ reads (writes [("flag", VString "on")] ∅) (render preset)).
Proof.
  apply (factory_defaults_reach_the_first_render 0
           {| observedAttributes := ["flag"]; factory := Some preset |} preset
           [("flag", VString "on")] (Hook OnBeforeUpdate (Get "seen" Return) Return) boot).
  - reflexivity.
  - reflexivity.
  - reflexivity.
  - reflexivity.
  - repeat constructor.
Defined.

(** ** A factory that throws *)

(** X10: when the factory throws, the construction fails there: no callback
    is invoked, nothing is rendered and no render computation is created.
    The instance stays allocated and keeps the callbacks that the factory
    registered before it threw. *)
Theorem throwing_factory_runs_nothing_else
    (fuel : nat) (cls : ElementClass) (f : Factory) (w : World) :
  factory cls = Some f → quiet (setup f) = true → raises ∅ (setup f) = true →
  ∃ w', constructor fuel cls w = Raised w'
    ∧ trace w' = trace w
    ∧ effects w' = effects w
    ∧ length (instances w') = S (length (instances w))
    ∧ (∀ name, registered w' (length (instances w)) name
               = hooked name (path ∅ (setup f)))
    ∧ (∀ j name, j ≠ length (instances w) → field w' j name = field w j name).
Proof.
  intros Hf Hq Hr. eexists. split.
  { unfold constructor. rewrite Hf. fold (entered w).
    rewrite (exec_quiet _ _ _ _ Hq), props_of_entered, Hr. done. }
  split_and!.
  - by rewrite trace_replays.
  - by rewrite effects_replays.
  - rewrite length_instances_replays. unfold entered. simpl.
    rewrite length_app. simpl. lia.
  - intros name. apply registered_setup.
  - intros j name Hne. rewrite field_replays_other by (simpl; congruence).
    unfold field, entered. simpl.
    destruct (decide (j < length (instances w))) as [Hlt|Hge].
    + by rewrite lookup_app_l.
    + rewrite !lookup_ge_None_2; [done|lia|]. rewrite length_app. simpl. lia.
Qed.

Lemma throwing_factory_runs_nothing_else_witness :
  ∃ w', constructor 1
          {| observedAttributes := [];
             factory := Some {| setup := Hook OnMounted Return Throw; render := Return |} |}
          counter_world = Raised w'
    ∧ trace w' = trace counter_world
    ∧ effects w' = effects counter_world
    ∧ length (instances w') = S (length (instances counter_world))
    ∧ (∀ name, registered w' (length (instances counter_world)) name
               = hooked name (path ∅ (Hook OnMounted Return Throw)))
    ∧ (∀ j name, j ≠ length (instances counter_world) →
         field w' j name = field counter_world j name).
Proof.
  apply (throwing_factory_runs_nothing_else 1
           {| observedAttributes := [];
              factory := Some {| setup := Hook OnMounted Return Throw; render := Return |} |}
           {| setup := Hook OnMounted Return Throw; render := Return |} counter_world);
    reflexivity.
Defined.

(** ** The further properties on small components *)

Example fragile_constructed :
  ∃ w', constructor 1 {| observedAttributes := ["count"]; factory := Some fragile |} boot
          = Raised w'
    ∧ trace w' = [Invoke 0 "_bm" Return; Invoke 0 "_bm" Throw]
    ∧ registered w' 0 "_bm" = [Return; Throw; Return]
    ∧ effects w' !! 0 = None.
Proof. eexists. split_and!; vm_compute; reflexivity. Qed.

Example picky_rerun_throws :
  trace picky_world = [Rendered 0]
  ∧ ∃ w', attributeChangedCallback 1 0 "bad" VNull (VString "yes") picky_world = Raised w'
      ∧ trace w' = [Rendered 0]
      ∧ own (props_of w' 0) !! "bad" = Some (VString "yes").
Proof.
  split; [vm_compute; reflexivity|]. eexists. split_and!; vm_compute; reflexivity.
Qed.

Example preset_constructed :
  ∃ w', constructor 1 {| observedAttributes := ["flag"]; factory := Some preset |} boot
          = Normal w'
    ∧ own (props_of w' 0) !! "flag" = Some (VString "on")
    ∧ trace w' = [Invoke 0 "_bu" (Get "seen" Return); Rendered 0]
    ∧ dependents w' 0 "a" = [0] ∧ dependents w' 0 "b" = []
    ∧ dependents w' 0 "seen" = [0]
    ∧ runs_of w' 0 = 1.
Proof. eexists. split_and!; vm_compute; reflexivity. Qed.

Example two_counters_stay_apart :
  ∃ w', attributeChangedCallback 1 1 "count" VNull (VString "7")
          (born counter counter_world) = Normal w'
    ∧ runs_of w' 0 = 1 ∧ runs_of w' 1 = 2
    ∧ own (props_of w' 0) !! "count" = None
    ∧ own (props_of w' 1) !! "count" = Some (VString "7").
Proof. eexists. split_and!; vm_compute; reflexivity. Qed.
